(** * Knight's shortest path: a shallow embedding of [main.py]

    The development follows the source file function by function:
    [dijkstra], [get_mapping], [add_edge], [build_knights_graph],
    [PERMITTED_MOVES], [generate_permitted_moves_from], [input_isvalid]
    and [main].

    Python values are modelled as follows.
    - [int] is [Z] (unbounded); [sys.maxsize] is [2^63 - 1], its value on a
      64-bit CPython.
    - [str] is [string]; characters are compared by code point.
    - [dict] is an insertion-ordered association list ([dict K V]): lookup
      takes the first binding of a key, assignment to a present key replaces
      its value in place, assignment to an absent key appends a binding.
    - [collections.defaultdict(dict)] is a graph whose [default_factory]
      flag is set: reading an absent key inserts an empty neighbour mapping.
    - exceptions are an error result ([KeyError]).
    - the [while] loop of [dijkstra] is run on fuel; the fuel given by
      [fuel_bound] is proved sufficient for every graph. *)

From Stdlib Require Import List ZArith String Ascii Bool Lia DecimalString
  FinFun.
Import ListNotations.

#[local] Open Scope Z_scope.
#[local] Open Scope string_scope.
#[local] Open Scope list_scope.

(** ** Results of fallible code *)

Inductive result (A : Type) : Type :=
| Ok (a : A)
| KeyError (key : string).

Arguments Ok {A} a.
Arguments KeyError {A} key.

Definition bind {A B : Type} (r : result A) (k : A -> result B) : result B :=
  match r with
  | Ok a => k a
  | KeyError key => KeyError key
  end.

Notation "x <- r ;; k" := (bind r (fun x => k))
  (at level 61, r at next level, right associativity).

(** [for x in xs: s = body(x, s)], stopping at the first exception *)
Fixpoint for_each {A S : Type} (xs : list A) (body : A -> S -> result S)
    (s : S) : result S :=
  match xs with
  | [] => Ok s
  | x :: rest => s' <- body x s ;; for_each rest body s'
  end.

(** ** Python dictionaries *)

Class Hashable (K : Type) : Type := {
  key_eqb : K -> K -> bool;
  key_text : K -> string
}.

#[export] Instance Hashable_string : Hashable string := {
  key_eqb := String.eqb;
  key_text := fun s => s
}.

Definition coord : Type := (Z * Z)%type.

Definition coord_eqb (a b : coord) : bool :=
  (fst a =? fst b)%Z && (snd a =? snd b)%Z.

Definition coord_text (a : coord) : string :=
  "(" ++ NilZero.string_of_int (Z.to_int (fst a)) ++ ", "
      ++ NilZero.string_of_int (Z.to_int (snd a)) ++ ")".

#[export] Instance Hashable_coord : Hashable coord := {
  key_eqb := coord_eqb;
  key_text := coord_text
}.

(** Key equality decides equality. *)
Class HashableLaws (K : Type) `{Hashable K} : Prop := {
  key_eqb_eq : forall a b : K, key_eqb a b = true <-> a = b
}.

Definition dict (K V : Type) : Type := list (K * V).

Section Dict.
Context {K V : Type} `{Hashable K}.

(** [d.get(k)] *)
Fixpoint dict_get (d : dict K V) (k : K) : option V :=
  match d with
  | [] => None
  | (k', v) :: rest => if key_eqb k' k then Some v else dict_get rest k
  end.

(** [d[k]], raising [KeyError] on an absent key *)
Definition dict_getitem (d : dict K V) (k : K) : result V :=
  match dict_get d k with
  | Some v => Ok v
  | None => KeyError (key_text k)
  end.

(** [d[k] = v] *)
Fixpoint dict_set (d : dict K V) (k : K) (v : V) : dict K V :=
  match d with
  | [] => [(k, v)]
  | (k', v') :: rest =>
      if key_eqb k' k then (k', v) :: rest else (k', v') :: dict_set rest k v
  end.

(** [list(d)], the keys in insertion order *)
Definition dict_keys (d : dict K V) : list K := map fst d.

(** [k in d] *)
Definition dict_mem (d : dict K V) (k : K) : bool :=
  match dict_get d k with Some _ => true | None => false end.

(** [d.update(e)] *)
Definition dict_update (d e : dict K V) : dict K V :=
  fold_left (fun acc kv => dict_set acc (fst kv) (snd kv)) e d.

(** [{k: v for k, v in kvs}] *)
Definition dict_of_items (kvs : list (K * V)) : dict K V :=
  dict_update [] kvs.
End Dict.

(** [x in xs] for a list of strings *)
Definition str_in (x : string) (xs : list string) : bool :=
  existsb (String.eqb x) xs.

(** [sep.join(xs)] *)
Fixpoint join (sep : string) (xs : list string) : string :=
  match xs with
  | [] => ""
  | [x] => x
  | x :: rest => x ++ sep ++ join sep rest
  end.

(** ** Graphs *)

(** A graph is a mapping of mappings.  [build_knights_graph] creates it as a
    [defaultdict(dict)], the test fixture as a plain [dict]; the flag tells
    them apart. *)
Record Graph : Type := {
  default_factory : bool;
  entries : dict string (dict string Z)
}.

Definition plain_graph (e : dict string (dict string Z)) : Graph :=
  {| default_factory := false; entries := e |}.

(** [graph[k]], with the graph as the lookup leaves it: on an absent key a
    [defaultdict] stores and returns a fresh empty mapping, a plain [dict]
    raises. *)
Definition graph_getitem (g : Graph) (k : string)
  : result (dict string Z) * Graph :=
  match dict_get (entries g) k with
  | Some nb => (Ok nb, g)
  | None =>
      if default_factory g
      then (Ok [], {| default_factory := true;
                      entries := dict_set (entries g) k [] |})
      else (KeyError k, g)
  end.

(** The outcome of a call of [dijkstra]: what it returned or raised, each
    with the graph object as the call leaves it, or no outcome within the
    fuel given. *)
Inductive run (A : Type) : Type :=
| Returned (a : A) (g : Graph)
| Raised (key : string) (g : Graph)
| Diverged.

Arguments Returned {A} a g.
Arguments Raised {A} key g.
Arguments Diverged {A}.

(** ** The priority queue of [heapq]

    [heapq] belongs to the standard library.  It is modelled by its contract:
    the queue is a bag of items, [heappush] adds one, [heappop] removes and
    returns the smallest.  Items are tuples [(cost, label)], compared as
    Python compares tuples: by cost, then by label.  This order is total, and
    two items that compare equal are the same tuple, so the item returned and
    the bag left behind are determined by the contract. *)

Definition heap_item : Type := (Z * string)%type.

Definition item_ltb (a b : heap_item) : bool :=
  (fst a <? fst b)%Z || ((fst a =? fst b)%Z && String.ltb (snd a) (snd b)).

Definition item_eqb (a b : heap_item) : bool :=
  (fst a =? fst b)%Z && String.eqb (snd a) (snd b).

Definition heappush (h : list heap_item) (x : heap_item) : list heap_item :=
  h ++ [x].

Fixpoint heap_min (best : heap_item) (h : list heap_item) : heap_item :=
  match h with
  | [] => best
  | x :: rest => heap_min (if item_ltb x best then x else best) rest
  end.

Fixpoint heap_remove (m : heap_item) (h : list heap_item) : list heap_item :=
  match h with
  | [] => []
  | x :: rest => if item_eqb x m then rest else x :: heap_remove m rest
  end.

Definition heappop (h : list heap_item)
  : option (heap_item * list heap_item) :=
  match h with
  | [] => None
  | x :: rest => let m := heap_min x rest in Some (m, heap_remove m h)
  end.

(** ** [dijkstra] *)

Definition sys_maxsize : Z := 9223372036854775807.

(** The value [{'cost': ..., 'pred': ...}] kept for each node. *)
Record NodeData : Type := {
  cost : Z;
  pred : list string
}.

Record LoopState : Type := {
  graph : Graph;
  node_data : dict string NodeData;
  visited : list string;
  min_heap : list heap_item
}.

(** The body of [for j in neighbours], lines 71-76. *)
Definition relax (temp : string) (vis : list string)
    (neighbours : dict string Z) (j : string)
    (acc : dict string NodeData * list heap_item)
  : result (dict string NodeData * list heap_item) :=
  let '(nd, h) := acc in
  if negb (str_in j vis) then
    dt <- dict_getitem nd temp ;;
    w <- dict_getitem neighbours j ;;
    let c := (cost dt + w)%Z in
    dj <- dict_getitem nd j ;;
    let nd' :=
      if (c <? cost dj)%Z
      then dict_set nd j {| cost := c; pred := pred dt ++ [temp] |}
      else nd in
    dj' <- dict_getitem nd' j ;;
    Ok (nd', heappush h (cost dj', j))
  else Ok (nd, h).

(** The [for] loop of lines 70-76. *)
Definition relax_all (temp : string) (vis : list string)
    (neighbours : dict string Z)
    (acc : dict string NodeData * list heap_item)
  : result (dict string NodeData * list heap_item) :=
  for_each (dict_keys neighbours) (relax temp vis neighbours) acc.

Inductive outcome : Type :=
| Continue (s : LoopState)
| Break (s : LoopState)
| Raise (key : string) (g : Graph).

(** One evaluation of the [while] test and body, lines 50-76. *)
Definition loop_body (src dst : string) (s : LoopState) : outcome :=
  match heappop (min_heap s) with
  | None => Break s
  | Some ((_, temp), h) =>
      if String.eqb src dst then
        Break {| graph := graph s; node_data := node_data s;
                 visited := visited s; min_heap := h |}
      else if str_in temp (visited s) then
        Continue {| graph := graph s; node_data := node_data s;
                    visited := visited s; min_heap := h |}
      else
        let vis := visited s ++ [temp] in
        match graph_getitem (graph s) temp with
        | (Ok neighbours, g) =>
            match neighbours with
            | [] => Continue {| graph := g; node_data := node_data s;
                                visited := vis; min_heap := h |}
            | _ :: _ =>
                match relax_all temp vis neighbours (node_data s, h) with
                | Ok (nd, h') =>
                    Continue {| graph := g; node_data := nd;
                                visited := vis; min_heap := h' |}
                | KeyError key => Raise key g
                end
            end
        | (KeyError key, g) => Raise key g
        end
  end.

Fixpoint while_loop (fuel : nat) (src dst : string) (s : LoopState)
  : run LoopState :=
  match fuel with
  | O => Diverged
  | S fuel' =>
      match loop_body src dst s with
      | Continue s' => while_loop fuel' src dst s'
      | Break s' => Returned s' (graph s')
      | Raise key g => Raised key g
      end
  end.

(** Lines 35-48: the state on entry to the loop. *)
Definition init_node_data (g : Graph) : dict string NodeData :=
  dict_of_items
    (map (fun k => (k, {| cost := sys_maxsize; pred := [] |}))
         (dict_keys (entries g))).

Definition set_cost (d : NodeData) (c : Z) : NodeData :=
  {| cost := c; pred := pred d |}.

Definition init_state (g : Graph) (src : string) : result LoopState :=
  let nd := init_node_data g in
  d <- dict_getitem nd src ;;
  Ok {| graph := g;
        node_data := dict_set nd src (set_cost d 0);
        visited := [];
        min_heap := [(0%Z, src)] |}.

(** Lines 78-79: the list that is joined into the result. *)
Definition shortest_path (s : LoopState) (dst : string)
  : result (list string) :=
  d <- dict_getitem (node_data s) dst ;;
  Ok (pred d ++ [dst]).

(** [dijkstra] with its loop run on [fuel] iterations. *)
Definition dijkstra_fuel (fuel : nat) (g : Graph) (src dst : string)
  : run string :=
  match init_state g src with
  | Ok s0 =>
      match while_loop fuel src dst s0 with
      | Returned s g' =>
          match shortest_path s dst with
          | Ok p => Returned (join " " p) g'
          | KeyError key => Raised key g'
          end
      | Raised key g' => Raised key g'
      | Diverged => Diverged
      end
  | KeyError key => Raised key g
  end.

(** The number of neighbour entries of the graph. *)
Definition edge_count (e : dict string (dict string Z)) : nat :=
  fold_right (fun kv n => (List.length (snd kv) + n)%nat) O e.

Definition fuel_bound (g : Graph) : nat := S (S (edge_count (entries g))).

Definition dijkstra (g : Graph) (src dst : string) : run string :=
  dijkstra_fuel (fuel_bound g) g src dst.

(** ** The knight's graph *)

(** [itertools.product(xs, ys)] *)
Definition product {A B : Type} (xs : list A) (ys : list B) : list (A * B) :=
  list_prod xs ys.

(** [int(c)] for a decimal digit [c] *)
Definition int (c : ascii) : Z := (Z.of_nat (nat_of_ascii c) - 48)%Z.

Definition get_mapping : dict coord string :=
  let letters :=
    product (list_ascii_of_string "ABCDEFGH")
            (list_ascii_of_string "12345678") in
  let letters := map (fun x => String (fst x) (String (snd x) "")) letters in
  let n :=
    product (list_ascii_of_string "01234567")
            (list_ascii_of_string "01234567") in
  let n := map (fun x => (int (fst x), int (snd x))) n in
  dict_of_items (map (fun ln => (snd ln, fst ln)) (combine letters n)).

(** [graph[vertex].update({other: 1})] *)
Definition add_neighbour (g : Graph) (vertex other : string)
  : result unit * Graph :=
  match graph_getitem g vertex with
  | (Ok nb, g') =>
      (Ok tt, {| default_factory := default_factory g';
                 entries := dict_set (entries g') vertex
                              (dict_update nb [(other, 1%Z)]) |})
  | (KeyError key, g') => (KeyError key, g')
  end.

Definition add_edge (g : Graph) (vertex_a vertex_b : string)
  : result unit * Graph :=
  match add_neighbour g vertex_a vertex_b with
  | (Ok _, g') => add_neighbour g' vertex_b vertex_a
  | (KeyError key, g') => (KeyError key, g')
  end.

Definition PERMITTED_MOVES : list (Z * Z) :=
  [ (-1, -2); ( 1, -2);
    (-2, -1); ( 2, -1);
    (-2,  1); ( 2,  1);
    (-1,  2); ( 1,  2) ]%Z.

(** The generator is modelled by the list of the values it yields. *)
Definition generate_permitted_moves_from (row col board_size : Z)
  : list (Z * Z) :=
  flat_map
    (fun off =>
       let move_row := (row + fst off)%Z in
       let move_col := (col + snd off)%Z in
       if ((0 <=? move_row) && (move_row <? board_size)
           && ((0 <=? move_col) && (move_col <? board_size)))%Z
       then [(move_row, move_col)] else [])
    PERMITTED_MOVES.

(** [range(n)] *)
Definition range (n : Z) : list Z := map Z.of_nat (seq 0 (Z.to_nat n)).

Definition build_knights_graph (board_size : Z) : result Graph :=
  let graph := {| default_factory := true; entries := [] |} in
  let mapping := get_mapping in
  for_each (range board_size) (fun row graph =>
    for_each (range board_size) (fun col graph =>
      for_each (generate_permitted_moves_from row col board_size)
        (fun to graph =>
           a <- dict_getitem mapping (row, col) ;;
           b <- dict_getitem mapping to ;;
           match add_edge graph a b with
           | (Ok _, graph') => Ok graph'
           | (KeyError key, _) => KeyError key
           end)
        graph)
      graph)
    graph.

(** ** Notions used to state the properties *)

(** The weight of the edge from [u] to [v], if there is one. *)
Definition weight (g : Graph) (u v : string) : option Z :=
  match dict_get (entries g) u with
  | Some nb => dict_get nb v
  | None => None
  end.

Definition is_node (g : Graph) (k : string) : Prop :=
  In k (dict_keys (entries g)).

(** Every edge weight is nonnegative. *)
Definition nonneg_weights (g : Graph) : Prop :=
  forall u v w, weight g u v = Some w -> (0 <= w)%Z.

(** Every neighbour key is a node key. *)
Definition closed_graph (g : Graph) : Prop :=
  forall u v w, weight g u v = Some w -> is_node g v.

(** [walk g src p v W]: [p] is a sequence of labels that starts at [src],
    ends at [v] and steps only along edges of [g]; [W] is the sum of the
    weights of its edges. *)
Inductive walk (g : Graph) (src : string)
  : list string -> string -> Z -> Prop :=
| walk_start : walk g src [src] src 0
| walk_step (p : list string) (u v : string) (W w : Z) :
    walk g src p u W ->
    weight g u v = Some w ->
    walk g src (p ++ [v]) v (W + w).

Definition reachable (g : Graph) (src dst : string) : Prop :=
  exists p W, walk g src p dst W.

(** [s] renders a walk from [src] to [dst] of minimal total weight. *)
Definition shortest_path_string (g : Graph) (src dst s : string) : Prop :=
  exists p W,
    s = join " " p /\ walk g src p dst W /\
    forall q W', walk g src q dst W' -> (W <= W')%Z.

(** The cost and the predecessor chain recorded for a node. *)
Definition cost_at (nd : dict string NodeData) (v : string) : Z :=
  match dict_get nd v with Some d => cost d | None => sys_maxsize end.

Definition pred_at (nd : dict string NodeData) (v : string) : list string :=
  match dict_get nd v with Some d => pred d | None => [] end.

(** The measure that bounds the iterations left: the queue length plus the
    neighbour entries of the nodes not yet visited. *)
Definition pending (vis : list string) (e : dict string (dict string Z))
  : nat :=
  fold_right
    (fun kv n => ((if str_in (fst kv) vis then O else List.length (snd kv))
                  + n)%nat)
    O e.

Definition measure (s : LoopState) : nat :=
  (List.length (min_heap s) + pending (visited s) (entries (graph s)))%nat.

(** What every iteration keeps, whatever the graph. *)
Record loop_inv (g : Graph) (s : LoopState) : Prop := {
  inv_graph : graph s = g;
  inv_keys : forall k, In k (dict_keys (node_data s)) <-> is_node g k;
  inv_heap : forall c v, In (c, v) (min_heap s) -> is_node g v;
  inv_visited : forall v, In v (visited s) -> is_node g v;
  inv_nodup : NoDup (visited s)
}.

(** The invariant of the search on a graph with nonnegative weights.
    [vis] lists the nodes marked visited, [relaxed] those whose neighbours
    have all been examined; between iterations the two coincide. *)
Record search_inv (g : Graph) (src : string) (vis relaxed : list string)
    (nd : dict string NodeData) (h : list heap_item) : Prop := {
  si_bounds : forall v, (0 <= cost_at nd v <= sys_maxsize)%Z;
  si_src : cost_at nd src = 0%Z;
  si_walk : forall v, (cost_at nd v < sys_maxsize)%Z ->
      walk g src (pred_at nd v ++ [v]) v (cost_at nd v);
  si_heap_ge : forall c v, In (c, v) h ->
      (cost_at nd v <= c <= sys_maxsize)%Z;
  si_heap_has : forall v, ~ In v vis -> (cost_at nd v < sys_maxsize)%Z ->
      In (cost_at nd v, v) h;
  si_vis_le : forall x c v, In x vis -> In (c, v) h ->
      (cost_at nd x <= c)%Z;
  si_edges : forall u v w, In u relaxed -> weight g u v = Some w ->
      (cost_at nd v <= cost_at nd u + w)%Z;
  si_last : forall x y, In x vis -> In y vis -> ~ In y relaxed ->
      (cost_at nd x <= cost_at nd y)%Z
}.

(** The node data every key starts with. *)
Definition fresh_node : NodeData := {| cost := sys_maxsize; pred := [] |}.

(** The state [s] with its queue replaced. *)
Definition with_heap (s : LoopState) (h : list heap_item) : LoopState :=
  {| graph := graph s; node_data := node_data s;
     visited := visited s; min_heap := h |}.

(** [search_inv] between two iterations. *)
Definition searching (g : Graph) (src : string) (s : LoopState) : Prop :=
  search_inv g src (visited s) (visited s) (node_data s) (min_heap s).

(** What the iterations keep on any graph: a node in the queue, or with a
    predecessor chain recorded, can be reached from the source. *)
Definition reaching (g : Graph) (src : string)
    (nd : dict string NodeData) (h : list heap_item) : Prop :=
  (forall c v, In (c, v) h -> reachable g src v) /\
  (forall v, pred_at nd v <> [] -> reachable g src v).

(** Decision procedures for properties of the edges of a graph. *)
Definition all_edges (g : Graph) (f : string -> string -> Z -> bool) : bool :=
  forallb
    (fun kv => forallb (fun e => f (fst kv) (fst e) (snd e)) (snd kv))
    (entries g).

Definition nonneg_weightsb (g : Graph) : bool :=
  all_edges g (fun _ _ w => (0 <=? w)%Z).

Definition closed_graphb (g : Graph) : bool :=
  all_edges g (fun _ v _ => dict_mem (entries g) v).

(** Every edge has weight 1 and its reverse is an edge of weight 1. *)
Definition symmetric_unitb (g : Graph) : bool :=
  all_edges g (fun u v w =>
    (w =? 1)%Z &&
    match weight g v u with Some w' => (w' =? 1)%Z | None => false end).

(** ** Notions used to state the properties of the board *)

(** The label of the square in row [r] and column [c]: row 0 is file ['A'],
    column 0 is rank ['1']. *)
Definition square_label (r c : Z) : string :=
  String (ascii_of_nat (65 + Z.to_nat r))
         (String (ascii_of_nat (49 + Z.to_nat c)) "").

(** The coordinates of the [n] x [n] board. *)
Definition on_board (n : Z) (rc : coord) : Prop :=
  (0 <= fst rc < n)%Z /\ (0 <= snd rc < n)%Z.

Definition board (n : Z) : list coord := product (range n) (range n).

(** The mapping read backwards: the first coordinate whose label is
    [label]. *)
Definition mapping_inverse (m : dict coord string) (label : string)
  : option coord :=
  option_map fst (find (fun kv => String.eqb (snd kv) label) m).

(** [xs] has no repeated element. *)
Fixpoint distinct {K : Type} `{Hashable K} (xs : list K) : bool :=
  match xs with
  | [] => true
  | x :: rest => negb (existsb (key_eqb x) rest) && distinct rest
  end.

(** The square at [rc] has a legal knight move on the [n] x [n] board. *)
Definition can_move (n : Z) (rc : coord) : bool :=
  match generate_permitted_moves_from (fst rc) (snd rc) n with
  | [] => false
  | _ :: _ => true
  end.

(** The labels of the squares of the [n] x [n] board that have a legal
    knight move. *)
Definition movable_labels (n : Z) : list string :=
  flat_map
    (fun rc =>
       if can_move n rc
       then match dict_get get_mapping rc with Some l => [l] | None => [] end
       else [])
    (board n).

(** The checks run on the graph built for each board size. *)
Definition knights_graph_ok (n : Z) : bool :=
  match build_knights_graph n with
  | Ok g =>
      let keys := dict_keys (entries g) in
      default_factory g
      && distinct keys
      && forallb (fun k => str_in k (movable_labels n)) keys
      && forallb (fun k => str_in k keys) (movable_labels n)
      && symmetric_unitb g
      && closed_graphb g
      && ((n <? 4)%Z
          || (forallb (can_move n) (board n)
              && (Z.of_nat (List.length keys) =? n * n)%Z))
  | KeyError _ => false
  end.

(** The checks run on the mapping at each coordinate of the 8 x 8 board. *)
Definition mapping_ok (rc : coord) : bool :=
  match dict_get get_mapping rc with
  | Some l =>
      String.eqb l (square_label (fst rc) (snd rc))
      && match mapping_inverse get_mapping l with
         | Some rc' => coord_eqb rc' rc
         | None => false
         end
  | None => false
  end.

(** ** The fixtures of [test_main.py] *)

Definition reference_graph : Graph := plain_graph
  [ ("A", [("B", 2); ("C", 4)]);
    ("B", [("A", 2); ("C", 3); ("D", 8)]);
    ("C", [("A", 4); ("B", 3); ("E", 5); ("D", 2)]);
    ("D", [("B", 8); ("C", 2); ("E", 11); ("F", 22)]);
    ("E", [("C", 5); ("D", 11); ("F", 1)]);
    ("F", [("D", 22); ("E", 1)]) ]%Z.

Definition reference_results : list string :=
  [ "A"; "A B"; "A C"; "A C D"; "A C E"; "A C E F";
    "B A"; "B"; "B C"; "B C D"; "B C E"; "B C E F";
    "C A"; "C B"; "C"; "C D"; "C E"; "C E F";
    "D C A"; "D C B"; "D C"; "D"; "D C E"; "D C E F";
    "E C A"; "E C B"; "E C"; "E C D"; "E"; "E F";
    "F E C A"; "F E C B"; "F E C"; "F E C D"; "F E"; "F" ].

Definition knights_graph_3 : Graph :=
  {| default_factory := true;
     entries :=
       [ ("A1", [("C2", 1); ("B3", 1)]);
         ("C2", [("A1", 1); ("A3", 1)]);
         ("B3", [("A1", 1); ("C1", 1)]);
         ("A2", [("C1", 1); ("C3", 1)]);
         ("C1", [("A2", 1); ("B3", 1)]);
         ("C3", [("A2", 1); ("B1", 1)]);
         ("A3", [("B1", 1); ("C2", 1)]);
         ("B1", [("A3", 1); ("C3", 1)]) ]%Z |}.

(** Graphs on which the search is examined. *)
Definition huge_edge_graph : Graph := plain_graph
  [ ("A", [("B", sys_maxsize)]); ("B", []) ].

Definition dangling_graph : Graph := plain_graph
  [ ("A", [("Z", 1%Z)]); ("B", []) ].

Definition islands_graph : Graph := plain_graph
  [ ("A", [("C", 1%Z)]); ("C", [("A", 1%Z)]); ("B", []) ].

(** ** Further notions *)

(** [b] is a knight's move away from [a]. *)
Definition knight_move (a b : coord) : Prop :=
  (Z.abs (fst b - fst a) = 1 /\ Z.abs (snd b - snd a) = 2)%Z \/
  (Z.abs (fst b - fst a) = 2 /\ Z.abs (snd b - snd a) = 1)%Z.

(** Every edge has a reverse edge of the same weight. *)
Definition symmetric (g : Graph) : Prop :=
  forall a b w, weight g a b = Some w <-> weight g b a = Some w.

(** The label of a coordinate of the 8 x 8 board is [l]. *)
Definition labelled (rc : coord) (l : string) : bool :=
  match dict_get get_mapping rc with
  | Some l' => String.eqb l' l
  | None => false
  end.

(** The check that the edges of the graph built for size [n] are the knight
    moves of the [n] x [n] board, in both directions. *)
Definition knights_edges_ok (n : Z) : bool :=
  match build_knights_graph n with
  | Ok g =>
      all_edges g (fun a b _ =>
        existsb
          (fun rc =>
             labelled rc a
             && existsb (fun rc' => labelled rc' b)
                  (generate_permitted_moves_from (fst rc) (snd rc) n))
          (board n))
      && forallb
           (fun rc =>
              forallb
                (fun rc' =>
                   match dict_get get_mapping rc, dict_get get_mapping rc' with
                   | Some a, Some b =>
                       match weight g a b with
                       | Some w => (w =? 1)%Z
                       | None => false
                       end
                   | _, _ => false
                   end)
                (generate_permitted_moves_from (fst rc) (snd rc) n))
           (board n)
  | KeyError _ => false
  end.

(** What the iterations keep about the predecessor chains, whatever the
    weights: a chain has no repeated label, holds only nodes marked visited
    and never the node it belongs to, and with that node appended it steps
    along edges of the graph. *)
Definition chain_inv (g : Graph) (vis : list string)
    (nd : dict string NodeData) : Prop :=
  forall v,
    NoDup (pred_at nd v) /\
    (forall x, In x (pred_at nd v) -> In x vis /\ x <> v) /\
    exists x W, walk g x (pred_at nd v ++ [v]) v W.

(** A recorded cost never exceeds the sentinel, and a node with a
    predecessor chain has a cost below it. *)
Definition sentinel_inv (nd : dict string NodeData) : Prop :=
  forall v,
    (cost_at nd v <= sys_maxsize)%Z /\
    (pred_at nd v <> [] -> (cost_at nd v < sys_maxsize)%Z).

(** The labels [dijkstra] joins into its result, when it returns. *)
Definition dijkstra_labels (g : Graph) (src dst : string)
  : option (list string) :=
  match init_state g src with
  | Ok s0 =>
      match while_loop (fuel_bound g) src dst s0 with
      | Returned s _ =>
          match shortest_path s dst with
          | Ok p => Some p
          | KeyError _ => None
          end
      | _ => None
      end
  | KeyError _ => None
  end.

(** The total weight of the label sequence [p] when it steps along edges. *)
Fixpoint walk_weight (g : Graph) (p : list string) : option Z :=
  match p with
  | [] => None
  | u :: rest =>
      match rest with
      | [] => Some 0%Z
      | v :: _ =>
          match weight g u v, walk_weight g rest with
          | Some w, Some W => Some (w + W)%Z
          | _, _ => None
          end
      end
  end.

(** The check that, on the graph built for size [n], the search from [src]
    reaches every node key by a walk of weight at most 64. *)
Definition knights_reach_ok (n : Z) (src : string) : bool :=
  match build_knights_graph n with
  | Ok g =>
      forallb
        (fun v =>
           match dijkstra_labels g src v with
           | Some p =>
               match p, walk_weight g p with
               | x :: _, Some W =>
                   String.eqb x src && String.eqb (last p "") v
                   && (W <=? 64)%Z
               | _, _ => false
               end
           | None => false
           end)
        (dict_keys (entries g))
  | KeyError _ => false
  end.

(** ** Input validation and [main]

    Characters are code points below 256.  Standard input is the list of the
    lines still to be read, each without its line end: [input()] takes the
    first, and raises [EOFError] when none is left.  Standard output is the
    list of the texts printed, one per call of [print]. *)

(** [c.isspace()], which is also what [\s] matches and what [split] splits
    on: the characters 9 to 13, 28 to 32, 133 and 160. *)
Definition isspace (c : ascii) : bool :=
  let n := nat_of_ascii c in
  ((9 <=? n) && (n <=? 13) || (28 <=? n) && (n <=? 32)
   || (n =? 133) || (n =? 160))%nat.

(** [c] lies in the character class [[lo-hi]]. *)
Definition in_class (lo hi c : ascii) : bool :=
  ((nat_of_ascii lo <=? nat_of_ascii c)
   && (nat_of_ascii c <=? nat_of_ascii hi))%nat.

(** [re.match(r'^[A-H][1-8]\s[A-H][1-8]$', inp)] finds a match.  [$]
    matches at the end of the string and just before a newline that ends
    it. *)
Definition input_pattern_matches (inp : string) : bool :=
  match inp with
  | String a (String b (String w (String c (String d rest)))) =>
      in_class "A" "H" a && in_class "1" "8" b && isspace w
      && in_class "A" "H" c && in_class "1" "8" d
      && match rest with
         | EmptyString => true
         | String nl EmptyString => Ascii.eqb nl "010"
         | _ => false
         end
  | _ => false
  end.

Fixpoint input_isvalid (user_input : list string) : bool :=
  match user_input with
  | [] => true
  | inp :: rest =>
      if negb (input_pattern_matches inp) then false else input_isvalid rest
  end.

(** [s.split()]: the maximal runs of characters that are not whitespace;
    [word] is the run being read. *)
Fixpoint split_from (s : string) (word : string) : list string :=
  match s with
  | EmptyString =>
      match word with EmptyString => [] | _ => [word] end
  | String c rest =>
      if isspace c then
        match word with
        | EmptyString => split_from rest ""
        | _ => word :: split_from rest ""
        end
      else split_from rest (word ++ String c "")
  end.

Definition split (s : string) : list string := split_from s "".

(** The exceptions [main] can end with; [NoOutcome] stands for a query that
    has no outcome within its fuel. *)
Inductive exn : Type :=
| ExcKeyError (key : string)
| ExcValueError
| ExcEOFError
| NoOutcome.

Definition PROMPT : string :=
  "Please, enter the knight's starting and ending positions in a 8x8 Chess board (eg. D4 D5) (MacOS: ^D to exit):".

Definition INVALID_INPUT : string :=
  "Invalid input. Please, enter start and end positions in a 8x8 Chess board (eg. D4 D5).".

Definition PRESS_ENTER : string := "Press <enter> to exit.".

Definition newline : string := String "010" "".

(** Lines 203-215: read lines until an empty one or the end of input;
    returns the lines kept and the input left. *)
Fixpoint read_lines (stdin : list string) (lines : list string)
  : list string * list string :=
  match stdin with
  | [] => (lines, [])
  | line :: rest =>
      match line with
      | EmptyString => (lines, rest)
      | _ => read_lines rest (lines ++ [line])
      end
  end.

(** Lines 221-224: answer each line with the graph the queries share. *)
Fixpoint answer_all (knights_graph : Graph) (lines : list string)
    (output : list string) : exn + list string :=
  match lines with
  | [] => inr output
  | line :: rest =>
      match split line with
      | [start; finish] =>
          match dijkstra knights_graph start finish with
          | Returned result g' => answer_all g' rest (output ++ [result])
          | Raised key _ => inl (ExcKeyError key)
          | Diverged => inl NoOutcome
          end
      | _ => inl ExcValueError
      end
  end.

(** What a run of [main] leaves: the texts printed and the exception it
    ended with, if any. *)
Record Console : Type := {
  printed : list string;
  raised : option exn
}.

Definition main (stdin : list string) : Console :=
  match build_knights_graph 8 with
  | KeyError key => {| printed := []; raised := Some (ExcKeyError key) |}
  | Ok knights_graph =>
      let '(lines, rest) := read_lines stdin [] in
      let answered :=
        if input_isvalid lines then
          match answer_all knights_graph lines [] with
          | inr output => inr [join newline output]
          | inl e => inl e
          end
        else inr [INVALID_INPUT] in
      match answered with
      | inl e => {| printed := [PROMPT]; raised := Some e |}
      | inr text =>
          {| printed := [PROMPT] ++ text ++ [PRESS_ENTER];
             raised := match rest with
                       | [] => Some ExcEOFError
                       | _ :: _ => None
                       end |}
      end
  end.

(** The coordinate that a file letter and a rank digit name. *)
Definition coord_of (a b : ascii) : coord :=
  (Z.of_nat (nat_of_ascii a) - 65, Z.of_nat (nat_of_ascii b) - 49)%Z.

(** [s] holds no whitespace. *)
Fixpoint no_space (s : string) : bool :=
  match s with
  | EmptyString => true
  | String c rest => negb (isspace c) && no_space rest
  end.

(** [s] is a word: not empty and without whitespace. *)
Definition is_word (s : string) : bool :=
  match s with
  | EmptyString => false
  | String _ _ => no_space s
  end.

(** The label of [rc] is a file letter followed by a rank digit. *)
Definition label_classes_ok (rc : coord) : bool :=
  match dict_get get_mapping rc with
  | Some (String a (String b EmptyString)) =>
      in_class "A" "H" a && in_class "1" "8" b
  | _ => false
  end.

(** [ans] answers the query on [line]: it renders a walk between the two
    labels of the line that has as few labels as any. *)
Definition answers (g : Graph) (line ans : string) : Prop :=
  exists start finish p W,
    split line = [start; finish] /\ ans = join " " p /\
    walk g start p finish W /\
    forall q W', walk g start q finish W' ->
                 (List.length p <= List.length q)%nat.

(** * Properties *)

(** ** Dictionaries *)

#[export] Instance HashableLaws_string : HashableLaws string.
Proof. constructor. exact String.eqb_eq. Qed.

#[export] Instance HashableLaws_coord : HashableLaws coord.
Proof.
  constructor. intros [a1 a2] [b1 b2]. cbn. unfold coord_eqb. cbn.
  rewrite andb_true_iff, !Z.eqb_eq. split; [intros [-> ->] | intros [= -> ->]];
    auto.
Qed.

Section DictFacts.
Context {K V : Type} `{HashableLaws K}.
Implicit Types (d : dict K V) (k : K) (v : V).

Lemma key_eqb_spec (a b : K) : reflect (a = b) (key_eqb a b).
Proof. apply iff_reflect. symmetry. apply key_eqb_eq. Qed.

Lemma key_eqb_refl k : key_eqb k k = true.
Proof. destruct (key_eqb_spec k k); congruence. Qed.

Lemma key_eqb_neq k k' : k <> k' -> key_eqb k k' = false.
Proof. destruct (key_eqb_spec k k'); congruence. Qed.

Lemma dict_get_set_eq d k v : dict_get (dict_set d k v) k = Some v.
Proof.
  induction d as [|[k' v'] d IH]; cbn.
  - now rewrite key_eqb_refl.
  - destruct (key_eqb_spec k' k) as [->|Hne]; cbn.
    + now rewrite key_eqb_refl.
    + now rewrite (key_eqb_neq _ _ Hne).
Qed.

Lemma dict_get_set_neq d k k' v :
  k <> k' -> dict_get (dict_set d k v) k' = dict_get d k'.
Proof.
  intros Hne. induction d as [|[k0 v0] d IH]; cbn.
  - now rewrite (key_eqb_neq _ _ Hne).
  - destruct (key_eqb_spec k0 k) as [->|Hne0]; cbn.
    + now rewrite (key_eqb_neq _ _ Hne).
    + now rewrite IH.
Qed.

Lemma dict_get_some_in d k v : dict_get d k = Some v -> In (k, v) d.
Proof.
  induction d as [|[k' v'] d IH]; cbn; [discriminate|].
  destruct (key_eqb_spec k' k) as [->|Hne].
  - intros [= ->]. now left.
  - intros Hg. right. auto.
Qed.

Lemma dict_get_in_keys d k :
  In k (dict_keys d) <-> exists v, dict_get d k = Some v.
Proof.
  induction d as [|[k' v'] d IH]; cbn.
  - split; [tauto | intros [v Hv]; discriminate].
  - destruct (key_eqb_spec k' k) as [->|Hne].
    + split; eauto.
    + rewrite <- IH. tauto.
Qed.

Lemma dict_get_none d k : dict_get d k = None <-> ~ In k (dict_keys d).
Proof.
  rewrite dict_get_in_keys. destruct (dict_get d k).
  - split; [discriminate | intros Hn; exfalso; eauto].
  - split; [intros _ [v Hv]; discriminate | reflexivity].
Qed.

Lemma dict_keys_set_present d k v :
  In k (dict_keys d) -> dict_keys (dict_set d k v) = dict_keys d.
Proof.
  induction d as [|[k' v'] d IH]; cbn; [tauto|].
  destruct (key_eqb_spec k' k) as [->|Hne]; cbn; [reflexivity|].
  intros [Heq|Hin]; [congruence|]. f_equal. auto.
Qed.

Lemma dict_keys_set d k v k' :
  In k' (dict_keys (dict_set d k v)) <-> k' = k \/ In k' (dict_keys d).
Proof.
  induction d as [|[k0 v0] d IH]; cbn.
  - intuition congruence.
  - destruct (key_eqb_spec k0 k) as [->|Hne]; cbn.
    + intuition congruence.
    + rewrite IH. tauto.
Qed.
End DictFacts.

(** ** Loops *)

Lemma for_each_ind {A S : Type} (body : A -> S -> result S)
    (P : list A -> S -> Prop) (xs : list A) (s0 : S) :
  P [] s0 ->
  (forall done x s s',
      P done s -> In x xs -> body x s = Ok s' -> P (done ++ [x]) s') ->
  forall s', for_each xs body s0 = Ok s' -> P xs s'.
Proof.
  intros H0 Hstep.
  assert (Hgen : forall rest done s s',
             xs = done ++ rest -> P done s ->
             for_each rest body s = Ok s' -> P xs s').
  { induction rest as [|x rest IH]; intros done s s' Hxs HP Hrun; cbn in Hrun.
    - injection Hrun as <-. now rewrite Hxs, app_nil_r.
    - destruct (body x s) as [s1|key] eqn:Hb; cbn in Hrun; [|discriminate].
      apply (IH (done ++ [x]) s1 s'); auto.
      + now rewrite <- app_assoc.
      + eapply Hstep; eauto. rewrite Hxs. apply in_or_app. right. now left. }
  intros s' Hrun. now apply (Hgen xs [] s0 s').
Qed.

Lemma for_each_total {A S : Type} (body : A -> S -> result S)
    (P : list A -> S -> Prop) (xs : list A) (s0 : S) :
  P [] s0 ->
  (forall done x s,
      P done s -> In x xs -> exists s', body x s = Ok s' /\ P (done ++ [x]) s') ->
  exists s', for_each xs body s0 = Ok s' /\ P xs s'.
Proof.
  intros H0 Hstep.
  assert (Hgen : forall rest done s,
             xs = done ++ rest -> P done s ->
             exists s', for_each rest body s = Ok s' /\ P xs s').
  { induction rest as [|x rest IH]; intros done s Hxs HP; cbn.
    - exists s. rewrite Hxs, app_nil_r. auto.
    - destruct (Hstep done x s HP) as (s1 & Hb & HP1).
      { rewrite Hxs. apply in_or_app. right. now left. }
      rewrite Hb. cbn. apply (IH (done ++ [x])); auto.
      now rewrite <- app_assoc. }
  now apply (Hgen xs [] s0).
Qed.

(** ** The priority queue *)

Lemma item_eqb_eq (a b : heap_item) : item_eqb a b = true <-> a = b.
Proof.
  destruct a as [c u], b as [c' u']. unfold item_eqb. cbn.
  rewrite andb_true_iff, Z.eqb_eq, String.eqb_eq.
  split; [intros [-> ->] | intros [= -> ->]]; auto.
Qed.

Lemma item_ltb_le (a b : heap_item) :
  item_ltb a b = true -> (fst a <= fst b)%Z.
Proof.
  unfold item_ltb. rewrite orb_true_iff, andb_true_iff, Z.ltb_lt, Z.eqb_eq.
  lia.
Qed.

Lemma heap_min_in (best : heap_item) (h : list heap_item) :
  In (heap_min best h) (best :: h).
Proof.
  revert best. induction h as [|x h IH]; intros best; cbn.
  - now left.
  - specialize (IH (if item_ltb x best then x else best)).
    destruct IH as [Heq|Hin]; [|auto].
    rewrite <- Heq. destruct (item_ltb x best); auto.
Qed.

Lemma heap_min_le (best : heap_item) (h : list heap_item) (x : heap_item) :
  In x (best :: h) -> (fst (heap_min best h) <= fst x)%Z.
Proof.
  revert best x. induction h as [|y h IH]; intros best x Hin; cbn.
  - destruct Hin as [<-|[]]. lia.
  - destruct (item_ltb y best) eqn:Hlt.
    + apply item_ltb_le in Hlt.
      destruct Hin as [<-|[<-|Hin]].
      * specialize (IH y y (or_introl eq_refl)). lia.
      * apply IH. now left.
      * apply IH. now right.
    + assert (Hge : (fst best <= fst y)%Z).
      { unfold item_ltb in Hlt. rewrite orb_false_iff, Z.ltb_ge in Hlt. lia. }
      destruct Hin as [<-|[<-|Hin]].
      * apply IH. now left.
      * specialize (IH best best (or_introl eq_refl)). lia.
      * apply IH. now right.
Qed.

Lemma heap_remove_length (m : heap_item) (h : list heap_item) :
  In m h -> List.length h = S (List.length (heap_remove m h)).
Proof.
  induction h as [|x h IH]; cbn; [tauto|].
  destruct (item_eqb x m) eqn:He; [reflexivity|].
  intros [->|Hin].
  - assert (item_eqb m m = true) by now apply item_eqb_eq. congruence.
  - cbn. f_equal. auto.
Qed.

Lemma heap_remove_incl (m x : heap_item) (h : list heap_item) :
  In x (heap_remove m h) -> In x h.
Proof.
  induction h as [|y h IH]; cbn; [tauto|].
  destruct (item_eqb y m); cbn; intuition.
Qed.

Lemma heap_remove_keep (m x : heap_item) (h : list heap_item) :
  In x h -> x <> m -> In x (heap_remove m h).
Proof.
  intros Hin Hne. induction h as [|y h IH]; cbn in *; [tauto|].
  destruct (item_eqb y m) eqn:He.
  - apply item_eqb_eq in He. subst y. destruct Hin; [congruence|auto].
  - cbn. destruct Hin; auto.
Qed.

Lemma heappop_spec (h h' : list heap_item) (m : heap_item) :
  heappop h = Some (m, h') ->
  In m h /\
  (forall x, In x h -> (fst m <= fst x)%Z) /\
  (forall x, In x h' -> In x h) /\
  (forall x, In x h -> x <> m -> In x h') /\
  List.length h = S (List.length h').
Proof.
  destruct h as [|x rest]; [discriminate|].
  unfold heappop. intros Heq.
  assert (Hm : m = heap_min x rest) by congruence.
  assert (Hh : h' = heap_remove m (x :: rest)) by (rewrite Hm; congruence).
  clear Heq. subst h'.
  assert (Hin : In m (x :: rest)) by (rewrite Hm; apply heap_min_in).
  repeat split.
  - exact Hin.
  - intros y Hy. rewrite Hm. now apply heap_min_le.
  - intros y Hy. eapply heap_remove_incl. exact Hy.
  - intros y Hy Hne. now apply heap_remove_keep.
  - now apply heap_remove_length.
Qed.

Lemma heappop_none (h : list heap_item) : heappop h = None -> h = [].
Proof. destruct h; cbn; [reflexivity|discriminate]. Qed.

(** ** Membership in the visited list *)

Lemma str_in_true (x : string) (xs : list string) :
  str_in x xs = true <-> In x xs.
Proof.
  unfold str_in. rewrite existsb_exists. split.
  - intros (y & Hy & He). apply String.eqb_eq in He. now subst.
  - intros Hin. exists x. split; [exact Hin | apply String.eqb_refl].
Qed.

Lemma str_in_false (x : string) (xs : list string) :
  str_in x xs = false <-> ~ In x xs.
Proof.
  rewrite <- str_in_true. destruct (str_in x xs); split; congruence.
Qed.

(** ** One relaxation *)

Lemma relax_spec (temp : string) (vis : list string) (nb : dict string Z)
    (j : string) (nd nd' : dict string NodeData) (h h' : list heap_item) :
  relax temp vis nb j (nd, h) = Ok (nd', h') ->
  (In j vis /\ nd' = nd /\ h' = h) \/
  (~ In j vis /\
   exists dt w dj,
     dict_get nd temp = Some dt /\ dict_get nb j = Some w /\
     dict_get nd j = Some dj /\
     (((cost dt + w < cost dj)%Z /\
       nd' = dict_set nd j {| cost := (cost dt + w)%Z;
                              pred := pred dt ++ [temp] |} /\
       h' = h ++ [((cost dt + w)%Z, j)]) \/
      ((cost dj <= cost dt + w)%Z /\ nd' = nd /\ h' = h ++ [(cost dj, j)]))).
Proof.
  unfold relax, dict_getitem, heappush.
  destruct (str_in j vis) eqn:Hvis; cbn.
  - intros [= <- <-]. left. now rewrite <- str_in_true.
  - apply str_in_false in Hvis.
    destruct (dict_get nd temp) as [dt|] eqn:Ht; cbn; [|discriminate].
    destruct (dict_get nb j) as [w|] eqn:Hw; cbn; [|discriminate].
    destruct (dict_get nd j) as [dj|] eqn:Hj; cbn; [|discriminate].
    destruct (Z.ltb_spec (cost dt + w) (cost dj)) as [Hlt|Hge].
    + rewrite dict_get_set_eq. cbn. intros [= <- <-].
      right. split; [exact Hvis|]. exists dt, w, dj. auto 10.
    + rewrite Hj. cbn. intros [= <- <-].
      right. split; [exact Hvis|]. exists dt, w, dj. auto 10.
Qed.

Lemma relax_total (temp : string) (vis : list string) (nb : dict string Z)
    (j : string) (nd : dict string NodeData) (h : list heap_item) :
  In temp (dict_keys nd) -> In j (dict_keys nb) -> In j (dict_keys nd) ->
  exists nd' h', relax temp vis nb j (nd, h) = Ok (nd', h').
Proof.
  intros Ht Hw Hj.
  apply dict_get_in_keys in Ht as [dt Ht].
  apply dict_get_in_keys in Hw as [w Hw].
  apply dict_get_in_keys in Hj as [dj Hj].
  unfold relax, dict_getitem.
  destruct (str_in j vis); cbn; [eauto|].
  rewrite Ht, Hw, Hj. cbn.
  destruct (cost dt + w <? cost dj)%Z.
  - rewrite dict_get_set_eq. cbn. eauto.
  - rewrite Hj. cbn. eauto.
Qed.

(** A relaxation keeps the keys of [node_data] and pushes at most one
    item, labelled by a key of [node_data]. *)
Lemma relax_frame (temp : string) (vis : list string) (nb : dict string Z)
    (j : string) (nd nd' : dict string NodeData) (h h' : list heap_item) :
  relax temp vis nb j (nd, h) = Ok (nd', h') ->
  dict_keys nd' = dict_keys nd /\
  (h' = h \/ exists c, h' = h ++ [(c, j)] /\ In j (dict_keys nd)).
Proof.
  intros Hr. apply relax_spec in Hr.
  destruct Hr as [(Hin & -> & ->)|(Hnin & dt & w & dj & Ht & Hw & Hj & Hcase)].
  - auto.
  - assert (Hk : In j (dict_keys nd)) by (apply dict_get_in_keys; eauto).
    destruct Hcase as [(_ & -> & ->)|(_ & -> & ->)].
    + rewrite dict_keys_set_present by exact Hk. eauto.
    + eauto.
Qed.

Lemma relax_all_frame (temp : string) (vis : list string)
    (nb : dict string Z) (nd nd' : dict string NodeData)
    (h h' : list heap_item) :
  relax_all temp vis nb (nd, h) = Ok (nd', h') ->
  dict_keys nd' = dict_keys nd /\
  (List.length h' <= List.length h + List.length nb)%nat /\
  (forall c v, In (c, v) h' -> In (c, v) h \/ In v (dict_keys nd)).
Proof.
  unfold relax_all. intros Hrun.
  pose (P := fun (done : list string) (a : dict string NodeData * list heap_item) =>
               dict_keys (fst a) = dict_keys nd /\
               (List.length (snd a) <= List.length h + List.length done)%nat /\
               (forall c v, In (c, v) (snd a) ->
                            In (c, v) h \/ In v (dict_keys nd))).
  assert (HP : P (dict_keys nb) (nd', h')).
  { apply (for_each_ind (relax temp vis nb) P _ (nd, h)); [| |exact Hrun].
    - unfold P. cbn. repeat split; auto. lia.
    - intros done x [nd1 h1] [nd2 h2] (Hk & Hl & Hh) _ Hb. unfold P.
      cbn [fst snd] in *.
      apply relax_frame in Hb as (Hk2 & Hh2).
      rewrite length_app. cbn [List.length].
      split; [now rewrite Hk2|]. rewrite Hk in Hh2.
      destruct Hh2 as [->|(c & -> & Hj)].
      + split; [lia|]. exact Hh.
      + rewrite length_app. cbn. split; [lia|].
        intros c' v Hin. apply in_app_or in Hin as [Hin|[[= <- <-]|[]]].
        * auto.
        * now right. }
  destruct HP as (Hk & Hl & Hh). cbn [fst snd] in *.
  unfold dict_keys in Hl at 1. rewrite length_map in Hl. auto.
Qed.

(** ** Termination measure *)

Lemma str_in_app (x t : string) (vis : list string) :
  str_in x (vis ++ [t]) = str_in x vis || String.eqb x t.
Proof.
  unfold str_in. rewrite existsb_app. cbn. now rewrite orb_false_r.
Qed.

Lemma pending_cons (vis : list string) (k : string) (nb : dict string Z)
    (e : dict string (dict string Z)) :
  pending vis ((k, nb) :: e)
  = ((if str_in k vis then O else List.length nb) + pending vis e)%nat.
Proof. reflexivity. Qed.

Lemma pending_mono (t : string) (vis : list string)
    (e : dict string (dict string Z)) :
  (pending (vis ++ [t]) e <= pending vis e)%nat.
Proof.
  induction e as [|[k nb] e IH]; [cbn; lia|].
  rewrite !pending_cons, str_in_app.
  destruct (str_in k vis); cbn [orb]; [lia|].
  destruct (String.eqb k t); lia.
Qed.

Lemma pending_visit (t : string) (vis : list string) (nb : dict string Z)
    (e : dict string (dict string Z)) :
  dict_get e t = Some nb -> ~ In t vis ->
  (pending (vis ++ [t]) e + List.length nb <= pending vis e)%nat.
Proof.
  intros Hg Hnin. induction e as [|[k v] e IH]; [discriminate|].
  rewrite !pending_cons, str_in_app. cbn [dict_get] in Hg.
  change (key_eqb k t) with (String.eqb k t) in Hg.
  destruct (String.eqb_spec k t) as [->|Hne].
  - injection Hg as ->. rewrite orb_true_r.
    apply str_in_false in Hnin. rewrite Hnin.
    pose proof (pending_mono t vis e). lia.
  - rewrite orb_false_r. specialize (IH Hg). lia.
Qed.

Lemma graph_getitem_node (g : Graph) (k : string) :
  is_node g k ->
  exists nb, dict_get (entries g) k = Some nb /\
             graph_getitem g k = (Ok nb, g).
Proof.
  intros Hk. apply dict_get_in_keys in Hk as [nb Hnb].
  exists nb. split; [exact Hnb|]. unfold graph_getitem. now rewrite Hnb.
Qed.

(** ** The state on entry to the loop *)

Lemma dict_update_const {V : Type} (c : V) (ks : list string)
    (d : dict string V) (k : string) :
  dict_get (dict_update d (map (fun k => (k, c)) ks)) k
  = if in_dec string_dec k ks then Some c else dict_get d k.
Proof.
  unfold dict_update. revert d.
  induction ks as [|k0 ks IH]; intros d; cbn [map fold_left].
  - reflexivity.
  - rewrite IH. cbn [fst snd].
    destruct (in_dec string_dec k ks) as [Hin|Hnin];
      destruct (in_dec string_dec k (k0 :: ks)) as [Hin'|Hnin'];
      try reflexivity.
    + exfalso. apply Hnin'. now right.
    + destruct Hin' as [->|Hin']; [|contradiction].
      apply dict_get_set_eq.
    + apply dict_get_set_neq. intros ->. apply Hnin'. now left.
Qed.

Lemma init_node_data_get (g : Graph) (k : string) :
  dict_get (init_node_data g) k
  = if in_dec string_dec k (dict_keys (entries g))
    then Some fresh_node else None.
Proof.
  unfold init_node_data, dict_of_items.
  now rewrite (dict_update_const fresh_node).
Qed.

Lemma init_node_data_keys (g : Graph) (k : string) :
  In k (dict_keys (init_node_data g)) <-> is_node g k.
Proof.
  rewrite dict_get_in_keys, init_node_data_get. unfold is_node.
  destruct (in_dec string_dec k (dict_keys (entries g))) as [Hin|Hnin].
  - split; eauto.
  - split; [intros [v Hv]; discriminate | contradiction].
Qed.

Lemma pending_nil (e : dict string (dict string Z)) :
  pending [] e = edge_count e.
Proof. induction e as [|[k nb] e IH]; cbn; congruence. Qed.

Lemma init_state_node (g : Graph) (src : string) :
  is_node g src ->
  exists s0,
    init_state g src = Ok s0 /\
    graph s0 = g /\
    node_data s0 = dict_set (init_node_data g) src
                     {| cost := 0%Z; pred := [] |} /\
    visited s0 = [] /\ min_heap s0 = [(0%Z, src)].
Proof.
  intros Hsrc. unfold init_state, dict_getitem.
  rewrite init_node_data_get.
  destruct (in_dec string_dec src (dict_keys (entries g))); [|contradiction].
  cbn. eexists. repeat split.
Qed.

Lemma init_state_missing (g : Graph) (src : string) :
  ~ is_node g src -> init_state g src = KeyError src.
Proof.
  intros Hsrc. unfold init_state, dict_getitem.
  rewrite init_node_data_get.
  destruct (in_dec string_dec src (dict_keys (entries g))); [contradiction|].
  reflexivity.
Qed.

Lemma init_state_inv (g : Graph) (src : string) (s0 : LoopState) :
  init_state g src = Ok s0 ->
  is_node g src /\ loop_inv g s0 /\ (measure s0 < fuel_bound g)%nat.
Proof.
  intros Hinit.
  assert (Hsrc : is_node g src).
  { destruct (in_dec string_dec src (dict_keys (entries g))) as [H|H];
      [exact H|]. rewrite (init_state_missing g src H) in Hinit. discriminate. }
  destruct (init_state_node g src Hsrc) as (s & Hs & Hg & Hnd & Hv & Hh).
  assert (s = s0) by congruence. subst s. split; [exact Hsrc|]. split.
  - constructor.
    + exact Hg.
    + intros k. rewrite Hnd, dict_keys_set, init_node_data_keys.
      split; [intros [->|H]; auto | auto].
    + intros c v. rewrite Hh. intros [[= <- <-]|[]]. exact Hsrc.
    + rewrite Hv. intros v [].
    + rewrite Hv. constructor.
  - unfold measure, fuel_bound. rewrite Hh, Hv, Hg, pending_nil. cbn. lia.
Qed.

(** ** One iteration *)

(** The shape of an iteration from a state that satisfies [loop_inv]: the
    node popped is a key, so the graph is read and never written. *)
Lemma loop_body_cases (g : Graph) (src dst : string) (s : LoopState) :
  loop_inv g s ->
  (min_heap s = [] /\ loop_body src dst s = Break s) \/
  exists c temp h,
    heappop (min_heap s) = Some ((c, temp), h) /\ is_node g temp /\
    ((src = dst /\ loop_body src dst s = Break (with_heap s h)) \/
     (src <> dst /\ In temp (visited s) /\
      loop_body src dst s = Continue (with_heap s h)) \/
     (src <> dst /\ ~ In temp (visited s) /\
      exists nb,
        dict_get (entries g) temp = Some nb /\
        loop_body src dst s =
          match relax_all temp (visited s ++ [temp]) nb (node_data s, h) with
          | Ok (nd, h') =>
              Continue {| graph := g; node_data := nd;
                          visited := visited s ++ [temp]; min_heap := h' |}
          | KeyError key => Raise key g
          end)).
Proof.
  intros Hinv. unfold loop_body.
  destruct (heappop (min_heap s)) as [[[c temp] h]|] eqn:Hpop.
  - right. exists c, temp, h. split; [reflexivity|].
    assert (Hnode : is_node g temp).
    { apply heappop_spec in Hpop as (Hin & _). eapply inv_heap; eauto. }
    split; [exact Hnode|].
    destruct (String.eqb_spec src dst) as [Heq|Hne]; [left; auto|right].
    destruct (str_in temp (visited s)) eqn:Hvis.
    + left. apply str_in_true in Hvis. auto.
    + right. apply str_in_false in Hvis.
      split; [exact Hne|]. split; [exact Hvis|].
      rewrite (inv_graph _ _ Hinv).
      destruct (graph_getitem_node g temp Hnode) as (nb & Hnb & ->).
      exists nb. split; [exact Hnb|].
      destruct nb as [|e nb]; reflexivity.
  - left. split; [now apply heappop_none|reflexivity].
Qed.

Lemma loop_inv_step (g : Graph) (src dst : string) (s : LoopState) :
  loop_inv g s ->
  match loop_body src dst s with
  | Continue s' => loop_inv g s' /\ (measure s' < measure s)%nat
  | Break s' => loop_inv g s' /\ (src = dst \/ min_heap s' = [])
  | Raise _ g' => g' = g
  end.
Proof.
  intros Hinv.
  destruct (loop_body_cases g src dst s Hinv)
    as [(Hnil & ->)|(c & temp & h & Hpop & Hnode & Hcase)]; [auto|].
  apply heappop_spec in Hpop as (Hin & _ & Hsub & _ & Hlen).
  assert (Hshrink : loop_inv g (with_heap s h)).
  { destruct Hinv. constructor; cbn; auto.
    intros c' v Hv. eauto. }
  destruct Hcase as [(Heq & ->)|[(Hne & Hvis & ->)|(Hne & Hvis & nb & Hnb & ->)]].
  - auto.
  - split; [exact Hshrink|]. unfold measure. cbn. lia.
  - destruct (relax_all temp (visited s ++ [temp]) nb (node_data s, h))
      as [[nd h']|key] eqn:Hrel; [|reflexivity].
    apply relax_all_frame in Hrel as (Hkeys & Hlen' & Hheap).
    split.
    + destruct Hinv. constructor; cbn [graph node_data visited min_heap].
      * reflexivity.
      * intros k. rewrite Hkeys. auto.
      * intros c' v Hv. destruct (Hheap c' v Hv) as [H|H]; [eauto|].
        now apply inv_keys0.
      * intros v Hv. apply in_app_or in Hv as [Hv|[<-|[]]]; auto.
      * apply NoDup_app; [exact inv_nodup0 | repeat constructor; tauto |].
        intros v Hv [<-|[]]. contradiction.
    + unfold measure. cbn. rewrite (inv_graph _ _ Hinv).
      pose proof (pending_visit temp (visited s) nb (entries g) Hnb Hvis).
      lia.
Qed.

Lemma while_loop_rule (g : Graph) (src dst : string)
    (I Q : LoopState -> Prop) (E : string -> Prop) :
  (forall s, loop_inv g s -> I s ->
     match loop_body src dst s with
     | Continue s' => I s'
     | Break s' => Q s'
     | Raise key _ => E key
     end) ->
  forall fuel s, loop_inv g s -> I s -> (measure s < fuel)%nat ->
    match while_loop fuel src dst s with
    | Returned s' g' =>
        g' = g /\ loop_inv g s' /\ Q s' /\ (src = dst \/ min_heap s' = [])
    | Raised key g' => g' = g /\ E key
    | Diverged => False
    end.
Proof.
  intros Hstep. induction fuel as [|fuel IH]; intros s Hinv HI Hm; [lia|].
  cbn [while_loop].
  pose proof (loop_inv_step g src dst s Hinv) as Hl.
  pose proof (Hstep s Hinv HI) as Hs.
  destruct (loop_body src dst s) as [s'|s'|key g'].
  - destruct Hl as (Hinv' & Hlt). apply IH; auto. lia.
  - destruct Hl as (Hinv' & Hend). split; [apply (inv_graph _ _ Hinv')|]. auto.
  - auto.
Qed.

(** ** Runs on a graph whose neighbour keys are node keys *)

Lemma relax_all_total (g : Graph) (temp : string) (vis : list string)
    (nb : dict string Z) (nd : dict string NodeData) (h : list heap_item) :
  closed_graph g ->
  (forall k, In k (dict_keys nd) <-> is_node g k) ->
  is_node g temp -> dict_get (entries g) temp = Some nb ->
  exists nd' h', relax_all temp vis nb (nd, h) = Ok (nd', h').
Proof.
  intros Hclosed Hkeys Htemp Hnb. unfold relax_all.
  pose (P := fun (_ : list string) (a : dict string NodeData * list heap_item) =>
               dict_keys (fst a) = dict_keys nd).
  destruct (for_each_total (relax temp vis nb) P (dict_keys nb) (nd, h))
    as ([nd' h'] & Hrun & _).
  - reflexivity.
  - intros done j [nd1 h1] HP Hj. unfold P in *. cbn [fst] in *.
    destruct (relax_total temp vis nb j nd1 h1) as (nd2 & h2 & Hr).
    + rewrite HP. now apply Hkeys.
    + exact Hj.
    + rewrite HP. apply Hkeys.
      apply dict_get_in_keys in Hj as [w Hw].
      apply (Hclosed temp j w). unfold weight. now rewrite Hnb.
    + exists (nd2, h2). split; [exact Hr|]. cbn [fst].
      apply relax_frame in Hr as (Hk & _). congruence.
  - eauto.
Qed.

Lemma loop_body_no_raise (g : Graph) (src dst : string) (s : LoopState) :
  closed_graph g -> loop_inv g s ->
  match loop_body src dst s with Raise _ _ => False | _ => True end.
Proof.
  intros Hclosed Hinv.
  destruct (loop_body_cases g src dst s Hinv)
    as [(Hnil & ->)|(c & temp & h & Hpop & Hnode & Hcase)]; [exact I|].
  destruct Hcase as [(_ & ->)|[(_ & _ & ->)|(_ & _ & nb & Hnb & ->)]];
    try exact I.
  destruct (relax_all_total g temp (visited s ++ [temp]) nb (node_data s) h)
    as (nd' & h' & ->); auto.
  apply (inv_keys _ _ Hinv).
Qed.

Lemma while_loop_more_fuel (src dst : string) (n m : nat) (s : LoopState) :
  (n <= m)%nat -> while_loop n src dst s <> Diverged ->
  while_loop m src dst s = while_loop n src dst s.
Proof.
  revert m s. induction n as [|n IH]; intros m s Hle Hnd; [now cbn in Hnd|].
  destruct m as [|m]; [lia|]. cbn [while_loop] in *.
  destruct (loop_body src dst s); auto. apply IH; [lia|exact Hnd].
Qed.

(** The general form of a run that returns: the loop ends in a state that
    satisfies whatever the iterations keep, and the result is read off the
    destination's predecessor chain. *)
Lemma dijkstra_returns (g : Graph) (src dst : string)
    (I Q : LoopState -> Prop) :
  closed_graph g -> is_node g src -> is_node g dst ->
  (forall s0, init_state g src = Ok s0 -> I s0) ->
  (forall s, loop_inv g s -> I s ->
     match loop_body src dst s with
     | Continue s' => I s'
     | Break s' => Q s'
     | Raise _ _ => True
     end) ->
  forall fuel, (fuel_bound g <= fuel)%nat ->
  exists s0 s' d,
    init_state g src = Ok s0 /\
    while_loop fuel src dst s0 = Returned s' g /\
    loop_inv g s' /\ Q s' /\ (src = dst \/ min_heap s' = []) /\
    dict_get (node_data s') dst = Some d /\
    dijkstra_fuel fuel g src dst = Returned (join " " (pred d ++ [dst])) g.
Proof.
  intros Hclosed Hsrc Hdst Hinit Hstep fuel Hfuel.
  destruct (init_state_node g src Hsrc) as (s0 & Hs0 & _).
  destruct (init_state_inv g src s0 Hs0) as (_ & Hinv0 & Hm0).
  pose proof (while_loop_rule g src dst I Q (fun _ => False)) as Hrule.
  specialize (Hrule) with (fuel := fuel) (s := s0).
  assert (Hrun : match while_loop fuel src dst s0 with
                 | Returned s' g' =>
                     g' = g /\ loop_inv g s' /\ Q s' /\
                     (src = dst \/ min_heap s' = [])
                 | Raised _ g' => g' = g /\ False
                 | Diverged => False
                 end).
  { apply Hrule; auto; [|lia].
    intros s Hinv HI. specialize (Hstep s Hinv HI).
    pose proof (loop_body_no_raise g src dst s Hclosed Hinv) as Hnr.
    destruct (loop_body src dst s); auto. }
  destruct (while_loop fuel src dst s0) as [s' g'|key g'|] eqn:Hwl;
    [|tauto|tauto].
  destruct Hrun as (-> & Hinv' & HQ & Hend).
  assert (Hd : exists d, dict_get (node_data s') dst = Some d).
  { apply dict_get_in_keys. now apply (inv_keys _ _ Hinv'). }
  destruct Hd as [d Hd].
  exists s0, s', d.
  split; [exact Hs0|]. split; [exact Hwl|]. split; [exact Hinv'|].
  split; [exact HQ|]. split; [exact Hend|]. split; [exact Hd|].
  unfold dijkstra_fuel. rewrite Hs0, Hwl.
  unfold shortest_path, dict_getitem. now rewrite Hd.
Qed.

(** ** Recorded costs and predecessor chains *)

Lemma cost_at_get (nd : dict string NodeData) (v : string) (d : NodeData) :
  dict_get nd v = Some d -> cost_at nd v = cost d /\ pred_at nd v = pred d.
Proof. unfold cost_at, pred_at. now intros ->. Qed.

Lemma cost_at_set_eq (nd : dict string NodeData) (j : string) (d : NodeData) :
  cost_at (dict_set nd j d) j = cost d /\ pred_at (dict_set nd j d) j = pred d.
Proof. unfold cost_at, pred_at. now rewrite dict_get_set_eq. Qed.

Lemma cost_at_set_neq (nd : dict string NodeData) (j v : string)
    (d : NodeData) :
  j <> v ->
  cost_at (dict_set nd j d) v = cost_at nd v /\
  pred_at (dict_set nd j d) v = pred_at nd v.
Proof. intros Hne. unfold cost_at, pred_at. now rewrite dict_get_set_neq. Qed.

Lemma cost_at_init (g : Graph) (src v : string) :
  cost_at (dict_set (init_node_data g) src {| cost := 0; pred := [] |}) v
  = if String.eqb src v then 0%Z else sys_maxsize.
Proof.
  destruct (String.eqb_spec src v) as [->|Hne].
  - apply cost_at_set_eq.
  - destruct (cost_at_set_neq (init_node_data g) src v
                {| cost := 0; pred := [] |} Hne) as [-> _].
    unfold cost_at. rewrite init_node_data_get.
    now destruct (in_dec string_dec v (dict_keys (entries g))).
Qed.

(** ** The search invariant *)

Lemma sys_maxsize_pos : (0 < sys_maxsize)%Z.
Proof. reflexivity. Qed.

Lemma search_inv_init (g : Graph) (src : string) :
  search_inv g src [] []
    (dict_set (init_node_data g) src {| cost := 0; pred := [] |})
    [(0%Z, src)].
Proof.
  pose proof sys_maxsize_pos as Hpos.
  assert (Hsrc : forall v,
             (cost_at (dict_set (init_node_data g) src
                         {| cost := 0; pred := [] |}) v < sys_maxsize)%Z ->
             v = src).
  { intros v. rewrite cost_at_init.
    destruct (String.eqb_spec src v); [auto|lia]. }
  constructor.
  - intros v. rewrite cost_at_init. destruct (String.eqb src v); lia.
  - rewrite cost_at_init. now rewrite String.eqb_refl.
  - intros v Hv. apply Hsrc in Hv as Heq. subst v.
    destruct (cost_at_set_eq (init_node_data g) src
                {| cost := 0; pred := [] |}) as [-> ->].
    cbn. constructor.
  - intros c v [[= <- <-]|[]]. rewrite cost_at_init, String.eqb_refl. lia.
  - intros v _ Hv. apply Hsrc in Hv as Heq. subst v.
    rewrite cost_at_init, String.eqb_refl. now left.
  - intros x c v [].
  - intros u v w [].
  - intros x y [].
Qed.

Lemma search_inv_pop_visited (g : Graph) (src : string) (vis : list string)
    (nd : dict string NodeData) (h h' : list heap_item) (c : Z)
    (temp : string) :
  search_inv g src vis vis nd h ->
  heappop h = Some ((c, temp), h') -> In temp vis ->
  search_inv g src vis vis nd h'.
Proof.
  intros [] Hpop Hvis.
  apply heappop_spec in Hpop as (Hin & Hmin & Hsub & Hkeep & _).
  constructor; try assumption.
  - intros c' v Hv. apply si_heap_ge0. auto.
  - intros v Hv Hc. apply Hkeep; [auto|]. intros [= _ ->]. contradiction.
  - intros x c' v Hx Hv. eauto.
Qed.

Lemma search_inv_pop_fresh (g : Graph) (src : string) (vis : list string)
    (nd : dict string NodeData) (h h' : list heap_item) (c : Z)
    (temp : string) :
  search_inv g src vis vis nd h ->
  heappop h = Some ((c, temp), h') -> ~ In temp vis ->
  search_inv g src (vis ++ [temp]) vis nd h'.
Proof.
  intros [] Hpop Hvis.
  apply heappop_spec in Hpop as (Hin & Hmin & Hsub & Hkeep & _).
  assert (Hc : c = cost_at nd temp).
  { destruct (si_heap_ge0 c temp Hin) as [Hlo Hhi].
    destruct (Z.lt_ge_cases (cost_at nd temp) sys_maxsize) as [Hlt|Hge].
    - specialize (Hmin _ (si_heap_has0 temp Hvis Hlt)). cbn in Hmin. lia.
    - lia. }
  constructor; try assumption.
  - intros c' v Hv. apply si_heap_ge0. auto.
  - intros v Hv Hcost. apply Hkeep.
    + apply si_heap_has0; [|exact Hcost]. intros Hin'. apply Hv.
      apply in_or_app. now left.
    + intros [= _ ->]. apply Hv. apply in_or_app. right. now left.
  - intros x c' v Hx Hv. apply in_app_or in Hx as [Hx|[<-|[]]].
    + eauto.
    + specialize (Hmin _ (Hsub _ Hv)). cbn in Hmin. lia.
  - intros x y Hx Hy Hny.
    apply in_app_or in Hy as [Hy|[<-|[]]]; [contradiction|].
    apply in_app_or in Hx as [Hx|[<-|[]]]; [|lia].
    specialize (si_vis_le0 x c temp Hx Hin). lia.
Qed.

Lemma search_inv_relax (g : Graph) (src : string) (vis : list string)
    (temp : string) (nb : dict string Z) (j : string)
    (nd nd' : dict string NodeData) (h h' : list heap_item) :
  nonneg_weights g -> ~ In temp vis ->
  dict_get (entries g) temp = Some nb ->
  search_inv g src (vis ++ [temp]) vis nd h ->
  relax temp (vis ++ [temp]) nb j (nd, h) = Ok (nd', h') ->
  search_inv g src (vis ++ [temp]) vis nd' h' /\
  (forall v, (cost_at nd' v <= cost_at nd v)%Z) /\
  cost_at nd' temp = cost_at nd temp /\
  (~ In j (vis ++ [temp]) -> forall w, dict_get nb j = Some w ->
     (cost_at nd' j <= cost_at nd temp + w)%Z).
Proof.
  intros Hnonneg Htemp Hnb Hinv Hrel.
  assert (Htv : In temp (vis ++ [temp])) by (apply in_or_app; right; now left).
  apply relax_spec in Hrel.
  destruct Hrel as [(Hin & -> & ->)|(Hnin & dt & w & dj & Ht & Hw & Hj & Hcase)].
  { split; [exact Hinv|]. split; [intros v; lia|]. split; [reflexivity|].
    intros Hnin. contradiction. }
  destruct (cost_at_get nd temp dt Ht) as [Hct Hpt].
  destruct (cost_at_get nd j dj Hj) as [Hcj Hpj].
  assert (Hedge : weight g temp j = Some w) by (unfold weight; now rewrite Hnb).
  assert (Hw0 : (0 <= w)%Z) by (eapply Hnonneg; eauto).
  destruct Hinv.
  destruct Hcase as [(Hlt & -> & ->)|(Hge & -> & ->)].
  - (* the recorded cost of [j] improves *)
    set (d := {| cost := (cost dt + w)%Z; pred := pred dt ++ [temp] |}).
    destruct (cost_at_set_eq nd j d) as [Hnc Hnp]. cbn [cost pred d] in Hnc, Hnp.
    assert (Hother : forall v, j <> v ->
               cost_at (dict_set nd j d) v = cost_at nd v /\
               pred_at (dict_set nd j d) v = pred_at nd v)
      by (intros v Hv; now apply cost_at_set_neq).
    assert (Hjt : j <> temp) by (intros ->; contradiction).
    assert (Hjvis : forall x, In x (vis ++ [temp]) -> j <> x)
      by (intros x Hx ->; contradiction).
    pose proof (si_bounds0 temp) as Hbt. pose proof (si_bounds0 j) as Hbj.
    assert (Hmono : forall v, (cost_at (dict_set nd j d) v <= cost_at nd v)%Z).
    { intros v. destruct (string_dec j v) as [<-|Hne].
      - rewrite Hnc. lia.
      - destruct (Hother v Hne) as [-> _]. lia. }
    split; [|split; [exact Hmono|split]].
    + constructor.
      * intros v. destruct (string_dec j v) as [<-|Hne].
        -- rewrite Hnc. lia.
        -- destruct (Hother v Hne) as [-> _]. apply si_bounds0.
      * destruct (string_dec j src) as [->|Hne].
        -- rewrite Hnc. lia.
        -- destruct (Hother src Hne) as [-> _]. exact si_src0.
      * intros v Hv. destruct (string_dec j v) as [<-|Hne].
        -- rewrite Hnc, Hnp, <- Hct, <- Hpt.
           apply walk_step with (u := temp); [|exact Hedge].
           apply si_walk0. lia.
        -- destruct (Hother v Hne) as [Hc Hp]. rewrite Hc, Hp.
           apply si_walk0. now rewrite <- Hc.
      * intros c v Hv. apply in_app_or in Hv as [Hv|[[= <- <-]|[]]].
        -- specialize (si_heap_ge0 c v Hv). specialize (Hmono v). lia.
        -- rewrite Hnc. lia.
      * intros v Hv Hc. apply in_or_app.
        destruct (string_dec j v) as [<-|Hne].
        -- right. left. now rewrite Hnc.
        -- left. destruct (Hother v Hne) as [Hcv _]. rewrite Hcv in *.
           now apply si_heap_has0.
      * intros x c v Hx Hv.
        destruct (Hother x (Hjvis x Hx)) as [-> _].
        apply in_app_or in Hv as [Hv|[[= <- <-]|[]]]; [eauto|].
        specialize (si_last0 x temp Hx Htv Htemp). lia.
      * intros u v w' Hu Huv.
        assert (Hu' : In u (vis ++ [temp])) by (apply in_or_app; now left).
        destruct (Hother u (Hjvis u Hu')) as [-> _].
        specialize (si_edges0 u v w' Hu Huv). specialize (Hmono v). lia.
      * intros x y Hx Hy Hny.
        destruct (Hother x (Hjvis x Hx)) as [-> _].
        destruct (Hother y (Hjvis y Hy)) as [-> _]. auto.
    + now destruct (Hother temp Hjt) as [-> _].
    + intros _ w' Hw'. rewrite Hnc. assert (w' = w) by congruence. lia.
  - (* the recorded cost of [j] stands *)
    split; [|split; [intros v; lia|split; [reflexivity|]]].
    + constructor; try assumption.
      * intros c v Hv. apply in_app_or in Hv as [Hv|[[= <- <-]|[]]]; [auto|].
        rewrite Hcj. specialize (si_bounds0 j). lia.
      * intros v Hv Hc. apply in_or_app. left. auto.
      * intros x c v Hx Hv.
        apply in_app_or in Hv as [Hv|[[= <- <-]|[]]]; [eauto|].
        rewrite <- Hcj.
        destruct (Z.lt_ge_cases (cost_at nd j) sys_maxsize) as [Hlt|Hmax].
        -- apply (si_vis_le0 x (cost_at nd j) j Hx). now apply si_heap_has0.
        -- specialize (si_bounds0 x). lia.
    + intros _ w' Hw'. assert (w' = w) by congruence. lia.
Qed.

Lemma search_inv_relax_all (g : Graph) (src : string) (vis : list string)
    (temp : string) (nb : dict string Z)
    (nd nd' : dict string NodeData) (h h' : list heap_item) :
  nonneg_weights g -> ~ In temp vis ->
  dict_get (entries g) temp = Some nb ->
  search_inv g src (vis ++ [temp]) vis nd h ->
  relax_all temp (vis ++ [temp]) nb (nd, h) = Ok (nd', h') ->
  search_inv g src (vis ++ [temp]) (vis ++ [temp]) nd' h'.
Proof.
  intros Hnonneg Htemp Hnb Hinv Hrun. unfold relax_all in Hrun.
  pose (P := fun (done : list string)
                 (a : dict string NodeData * list heap_item) =>
               search_inv g src (vis ++ [temp]) vis (fst a) (snd a) /\
               cost_at (fst a) temp = cost_at nd temp /\
               forall j w, In j done -> ~ In j (vis ++ [temp]) ->
                           dict_get nb j = Some w ->
                           (cost_at (fst a) j <= cost_at nd temp + w)%Z).
  assert (HP : P (dict_keys nb) (nd', h')).
  { apply (for_each_ind (relax temp (vis ++ [temp]) nb) P _ (nd, h));
      [| |exact Hrun].
    - unfold P. cbn [fst snd]. split; [exact Hinv|]. split; [reflexivity|].
      intros j w [].
    - intros done j [nd1 h1] [nd2 h2] (Hinv1 & Ht1 & Hdone1) _ Hrel.
      unfold P. cbn [fst snd] in *.
      destruct (search_inv_relax g src vis temp nb j nd1 nd2 h1 h2)
        as (Hinv2 & Hmono & Ht2 & Hj); auto.
      split; [exact Hinv2|]. split; [congruence|].
      intros j' w Hin Hnv Hw. apply in_app_or in Hin as [Hin|[<-|[]]].
      + specialize (Hdone1 j' w Hin Hnv Hw). specialize (Hmono j'). lia.
      + rewrite <- Ht1. auto. }
  destruct HP as (Hinv' & Ht & Hdone). cbn [fst snd] in *.
  assert (Htv : In temp (vis ++ [temp])) by (apply in_or_app; right; now left).
  destruct Hinv'. constructor; try assumption.
  - intros u v w Hu Huv. apply in_app_or in Hu as [Hu|[<-|[]]]; [eauto|].
    assert (Hw : dict_get nb v = Some w)
      by (unfold weight in Huv; now rewrite Hnb in Huv).
    assert (Hw0 : (0 <= w)%Z) by (eapply Hnonneg; eauto).
    destruct (in_dec string_dec v (vis ++ [temp])) as [Hv|Hv].
    + specialize (si_last0 v temp Hv Htv Htemp). lia.
    + rewrite Ht. apply Hdone; auto. apply dict_get_in_keys. eauto.
  - intros x y Hx Hy Hny. contradiction.
Qed.

Lemma searching_step (g : Graph) (src dst : string) (s : LoopState) :
  nonneg_weights g -> src <> dst ->
  loop_inv g s -> searching g src s ->
  match loop_body src dst s with
  | Continue s' => searching g src s'
  | Break s' => searching g src s'
  | Raise _ _ => True
  end.
Proof.
  intros Hnonneg Hne Hinv Hs.
  destruct (loop_body_cases g src dst s Hinv)
    as [(Hnil & ->)|(c & temp & h & Hpop & Hnode & Hcase)]; [exact Hs|].
  destruct Hcase as [(Heq & _)|[(_ & Hvis & ->)|(_ & Hvis & nb & Hnb & ->)]].
  - contradiction.
  - unfold searching. cbn. eapply search_inv_pop_visited; eauto.
  - destruct (relax_all temp (visited s ++ [temp]) nb (node_data s, h))
      as [[nd h']|key] eqn:Hrel; [|exact I].
    unfold searching. cbn.
    eapply search_inv_relax_all; eauto.
    eapply search_inv_pop_fresh; eauto.
Qed.

(** When the queue is empty every recorded cost is a lower bound on the
    weight of the walks from the source. *)
Lemma search_inv_lower_bound (g : Graph) (src : string) (vis : list string)
    (nd : dict string NodeData) :
  nonneg_weights g ->
  search_inv g src vis vis nd [] ->
  forall q v W, walk g src q v W -> (cost_at nd v <= W)%Z.
Proof.
  intros Hnonneg [] q v W Hwalk.
  induction Hwalk as [|p u v W w Hwalk IH Hedge].
  - lia.
  - assert (Hw0 : (0 <= w)%Z) by (eapply Hnonneg; eauto).
    destruct (Z.lt_ge_cases (cost_at nd u) sys_maxsize) as [Hlt|Hge].
    + destruct (in_dec string_dec u vis) as [Hu|Hu].
      * specialize (si_edges0 u v w Hu Hedge). lia.
      * destruct (si_heap_has0 u Hu Hlt).
    + specialize (si_bounds0 v). lia.
Qed.

Lemma walk_nonneg (g : Graph) (src : string) (q : list string) (v : string)
    (W : Z) :
  nonneg_weights g -> walk g src q v W -> (0 <= W)%Z.
Proof.
  intros Hnonneg Hwalk. induction Hwalk as [|p u v W w Hwalk IH Hedge]; [lia|].
  assert (0 <= w)%Z by (eapply Hnonneg; eauto). lia.
Qed.

Lemma walk_head (g : Graph) (src : string) (q : list string) (v : string)
    (W : Z) :
  walk g src q v W -> exists rest, q = src :: rest.
Proof.
  intros Hwalk. induction Hwalk as [|p u v W w Hwalk [rest ->] Hedge].
  - now exists [].
  - now exists (rest ++ [v]).
Qed.

(** ** A query from a node to itself *)

Lemma dijkstra_self (g : Graph) (x : string) (fuel : nat) :
  is_node g x ->
  exists s0,
    init_state g x = Ok s0 /\
    loop_body x x s0 = Break (with_heap s0 []) /\
    visited s0 = [] /\
    dijkstra_fuel (S fuel) g x x = Returned x g.
Proof.
  intros Hx.
  destruct (init_state_node g x Hx) as (s0 & Hs0 & Hg & Hnd & Hv & Hh).
  assert (Hbody : loop_body x x s0 = Break (with_heap s0 [])).
  { unfold loop_body. rewrite Hh. cbn [heappop heap_min heap_remove].
    assert (He : item_eqb (0%Z, x) (0%Z, x) = true) by now apply item_eqb_eq.
    rewrite He, String.eqb_refl. reflexivity. }
  exists s0. split; [exact Hs0|]. split; [exact Hbody|]. split; [exact Hv|].
  unfold dijkstra_fuel. rewrite Hs0. cbn [while_loop]. rewrite Hbody.
  unfold shortest_path, dict_getitem. cbn [with_heap node_data graph].
  rewrite Hnd, dict_get_set_eq, Hg. reflexivity.
Qed.

(** ** Edges and reachability *)

Lemma weight_in (g : Graph) (u v : string) (w : Z) :
  weight g u v = Some w ->
  exists nb, dict_get (entries g) u = Some nb /\
             In (u, nb) (entries g) /\ In (v, w) nb.
Proof.
  unfold weight. destruct (dict_get (entries g) u) as [nb|] eqn:Hnb;
    [|discriminate].
  intros Hw. exists nb. split; [reflexivity|].
  split; now apply dict_get_some_in.
Qed.

Lemma all_edges_spec (g : Graph) (f : string -> string -> Z -> bool) :
  all_edges g f = true ->
  forall u v w, weight g u v = Some w -> f u v w = true.
Proof.
  unfold all_edges. rewrite forallb_forall. intros Hall u v w Hw.
  apply weight_in in Hw as (nb & _ & Hu & Hv).
  specialize (Hall (u, nb) Hu). cbn [fst snd] in Hall.
  rewrite forallb_forall in Hall. exact (Hall (v, w) Hv).
Qed.

Lemma nonneg_weightsb_sound (g : Graph) :
  nonneg_weightsb g = true -> nonneg_weights g.
Proof.
  intros Hb u v w Hw. apply (all_edges_spec g _ Hb) in Hw.
  now apply Z.leb_le.
Qed.

Lemma closed_graphb_sound (g : Graph) :
  closed_graphb g = true -> closed_graph g.
Proof.
  intros Hb u v w Hw. apply (all_edges_spec g _ Hb) in Hw.
  unfold dict_mem in Hw. apply dict_get_in_keys.
  destruct (dict_get (entries g) v); [eauto|discriminate].
Qed.

Lemma reachable_refl (g : Graph) (src : string) : reachable g src src.
Proof. exists [src], 0%Z. constructor. Qed.

Lemma reachable_step (g : Graph) (src u v : string) (w : Z) :
  reachable g src u -> weight g u v = Some w -> reachable g src v.
Proof.
  intros (p & W & Hwalk) Hw. exists (p ++ [v]), (W + w)%Z.
  now apply walk_step with (u := u).
Qed.

(** Walks from [src] stay in any set that holds [src] and is closed under
    the edges. *)
Lemma reachable_within (g : Graph) (src : string) (inside : string -> Prop) :
  inside src ->
  (forall u v w, inside u -> weight g u v = Some w -> inside v) ->
  forall v, reachable g src v -> inside v.
Proof.
  intros Hsrc Hclosed v (p & W & Hwalk).
  induction Hwalk as [|p u v W w Hwalk IH Hedge]; eauto.
Qed.

Lemma pred_at_init (g : Graph) (src v : string) :
  pred_at (dict_set (init_node_data g) src {| cost := 0; pred := [] |}) v = [].
Proof.
  destruct (string_dec src v) as [->|Hne].
  - apply cost_at_set_eq.
  - destruct (cost_at_set_neq (init_node_data g) src v
                {| cost := 0; pred := [] |} Hne) as [_ ->].
    unfold pred_at. rewrite init_node_data_get.
    now destruct (in_dec string_dec v (dict_keys (entries g))).
Qed.

Lemma reaching_relax (g : Graph) (src temp : string) (vis : list string)
    (nb : dict string Z) (j : string) (nd nd' : dict string NodeData)
    (h h' : list heap_item) :
  dict_get (entries g) temp = Some nb -> reachable g src temp ->
  reaching g src nd h ->
  relax temp vis nb j (nd, h) = Ok (nd', h') ->
  reaching g src nd' h'.
Proof.
  intros Hnb Htemp [Hheap Hpred] Hrel. apply relax_spec in Hrel.
  destruct Hrel as [(_ & -> & ->)|(_ & dt & w & dj & Ht & Hw & Hj & Hcase)];
    [now split|].
  assert (Hrj : reachable g src j).
  { apply (reachable_step g src temp j w Htemp). unfold weight.
    now rewrite Hnb. }
  destruct Hcase as [(_ & -> & ->)|(_ & -> & ->)]; split.
  - intros c v Hv. apply in_app_or in Hv as [Hv|[[= <- <-]|[]]]; eauto.
  - intros v Hv. destruct (string_dec j v) as [<-|Hne]; [exact Hrj|].
    apply Hpred.
    now destruct (cost_at_set_neq nd j v
                    {| cost := (cost dt + w)%Z; pred := pred dt ++ [temp] |}
                    Hne) as [_ <-].
  - intros c v Hv. apply in_app_or in Hv as [Hv|[[= <- <-]|[]]]; eauto.
  - exact Hpred.
Qed.

Lemma reaching_step (g : Graph) (src dst : string) (s : LoopState) :
  loop_inv g s -> reaching g src (node_data s) (min_heap s) ->
  match loop_body src dst s with
  | Continue s' => reaching g src (node_data s') (min_heap s')
  | Break s' => reaching g src (node_data s') (min_heap s')
  | Raise _ _ => True
  end.
Proof.
  intros Hinv Hr.
  destruct (loop_body_cases g src dst s Hinv)
    as [(Hnil & ->)|(c & temp & h & Hpop & Hnode & Hcase)]; [exact Hr|].
  apply heappop_spec in Hpop as (Hin & _ & Hsub & _).
  assert (Hshrink : reaching g src (node_data s) h).
  { destruct Hr as [Hheap Hpred]. split; [|exact Hpred]. intros c' v Hv. eauto. }
  destruct Hcase as [(_ & ->)|[(_ & _ & ->)|(_ & _ & nb & Hnb & ->)]];
    try exact Hshrink.
  destruct (relax_all temp (visited s ++ [temp]) nb (node_data s, h))
    as [[nd h']|key] eqn:Hrel; [|exact I].
  cbn [node_data min_heap]. unfold relax_all in Hrel.
  pose (P := fun (_ : list string)
                 (a : dict string NodeData * list heap_item) =>
               reaching g src (fst a) (snd a)).
  assert (HP : P (dict_keys nb) (nd, h')); [|exact HP].
  apply (for_each_ind (relax temp (visited s ++ [temp]) nb) P _
           (node_data s, h)); [exact Hshrink| |exact Hrel].
  intros done j [nd1 h1] [nd2 h2] HP _ Hr1. unfold P in *. cbn [fst snd] in *.
  eapply reaching_relax; eauto. destruct Hr as [Hheap _]. eauto.
Qed.

(** ** Shortest paths *)

Lemma searching_init (g : Graph) (src : string) (s0 : LoopState) :
  init_state g src = Ok s0 -> searching g src s0.
Proof.
  intros Hs0. destruct (init_state_inv g src s0 Hs0) as (Hsrc & _).
  destruct (init_state_node g src Hsrc) as (s & Hs & _ & Hnd & Hv & Hh).
  assert (s = s0) by congruence. subst s.
  unfold searching. rewrite Hnd, Hv, Hh. apply search_inv_init.
Qed.

Lemma reaching_init (g : Graph) (src : string) (s0 : LoopState) :
  init_state g src = Ok s0 -> reaching g src (node_data s0) (min_heap s0).
Proof.
  intros Hs0. destruct (init_state_inv g src s0 Hs0) as (Hsrc & _).
  destruct (init_state_node g src Hsrc) as (s & Hs & _ & Hnd & Hv & Hh).
  assert (s = s0) by congruence. subst s.
  rewrite Hnd, Hh. split.
  - intros c v [[= <- <-]|[]]. apply reachable_refl.
  - intros v Hv'. now rewrite pred_at_init in Hv'.
Qed.

(** C2, as amended.  On a graph whose edge weights are nonnegative and whose
    neighbour keys are node keys, for node keys [src] and [dst] such that
    some walk from [src] to [dst] weighs less than [sys.maxsize],
    [dijkstra] returns the space-joined labels of a walk that starts at
    [src], ends at [dst], steps only along edges, and weighs no more than any
    walk from [src] to [dst]; the graph is left as it was. *)
Theorem dijkstra_shortest_path (g : Graph) (src dst : string) :
  nonneg_weights g -> closed_graph g -> is_node g src -> is_node g dst ->
  (exists q W, walk g src q dst W /\ (W < sys_maxsize)%Z) ->
  exists s,
    dijkstra g src dst = Returned s g /\ shortest_path_string g src dst s.
Proof.
  intros Hnonneg Hclosed Hsrc Hdst (q & W & Hq & HW).
  destruct (string_dec src dst) as [<-|Hne].
  - destruct (dijkstra_self g src (S (edge_count (entries g))) Hsrc)
      as (s0 & _ & _ & _ & Hrun).
    exists src. split; [exact Hrun|].
    exists [src], 0%Z. split; [reflexivity|]. split; [constructor|].
    intros q' W' Hq'. eapply walk_nonneg; eauto.
  - destruct (dijkstra_returns g src dst (searching g src) (searching g src)
                Hclosed Hsrc Hdst)
      with (fuel := fuel_bound g)
      as (s0 & s' & d & Hs0 & Hwl & Hinv & HQ & Hend & Hd & Hrun).
    + apply searching_init.
    + intros s Hi Hs. now apply searching_step.
    + apply le_n.
    + destruct Hend as [Heq|Hnil]; [contradiction|].
      unfold searching in HQ. rewrite Hnil in HQ.
      pose proof (search_inv_lower_bound g src _ _ Hnonneg HQ) as Hlow.
      destruct (cost_at_get _ _ _ Hd) as [Hc Hp].
      exists (join " " (pred d ++ [dst])). split; [exact Hrun|].
      exists (pred d ++ [dst]), (cost d). split; [reflexivity|]. split.
      * rewrite <- Hc, <- Hp. apply (si_walk _ _ _ _ _ _ HQ).
        specialize (Hlow q dst W Hq). lia.
      * intros q' W' Hq'. rewrite <- Hc. eapply Hlow; eauto.
Qed.

Lemma reference_graph_checked :
  nonneg_weights reference_graph /\ closed_graph reference_graph.
Proof.
  split; [apply nonneg_weightsb_sound | apply closed_graphb_sound];
    vm_compute; reflexivity.
Qed.

Lemma dijkstra_shortest_path_witness :
  exists s,
    dijkstra reference_graph "A" "D" = Returned s reference_graph /\
    shortest_path_string reference_graph "A" "D" s.
Proof.
  apply (dijkstra_shortest_path reference_graph "A" "D").
  - apply reference_graph_checked.
  - apply reference_graph_checked.
  - vm_compute. auto.
  - vm_compute. auto 10.
  - exists ((["A"] ++ ["C"]) ++ ["D"]), (0 + 4 + 2)%Z. split; [|reflexivity].
    apply walk_step with (u := "C"); [|reflexivity].
    apply walk_step with (u := "A"); [|reflexivity].
    constructor.
Defined.

(** C2 as stated fails: an edge that weighs [sys.maxsize] is never relaxed,
    so the query from ["A"] to ["B"] on [huge_edge_graph] returns ["B"],
    which is no walk from ["A"]. *)
Lemma dijkstra_huge_edge_counterexample :
  nonneg_weights huge_edge_graph /\ closed_graph huge_edge_graph /\
  is_node huge_edge_graph "A" /\ is_node huge_edge_graph "B" /\
  reachable huge_edge_graph "A" "B" /\
  dijkstra huge_edge_graph "A" "B" = Returned "B" huge_edge_graph /\
  ~ shortest_path_string huge_edge_graph "A" "B" "B".
Proof.
  split; [apply nonneg_weightsb_sound; vm_compute; reflexivity|].
  split; [apply closed_graphb_sound; vm_compute; reflexivity|].
  split; [vm_compute; auto|]. split; [vm_compute; auto|].
  split.
  { exists (["A"] ++ ["B"]), (0 + sys_maxsize)%Z.
    apply walk_step with (u := "A"); [constructor|reflexivity]. }
  split; [vm_compute; reflexivity|].
  intros (p & W & Hjoin & Hwalk & _).
  apply walk_head in Hwalk as [rest ->].
  destruct rest as [|y rest]; cbn in Hjoin; discriminate.
Qed.

(** C3.  For every graph and every node key [x], [dijkstra] from [x] to [x]
    returns the single label [x]: the first evaluation of the loop body pops
    the queue and breaks, leaving [node_data] and [visited] as they were on
    entry, so no neighbour is relaxed. *)
Theorem dijkstra_self_path (g : Graph) (x : string) :
  is_node g x ->
  dijkstra g x x = Returned (join " " [x]) g /\
  exists s0,
    init_state g x = Ok s0 /\
    loop_body x x s0 = Break (with_heap s0 []) /\
    visited s0 = [].
Proof.
  intros Hx.
  destruct (dijkstra_self g x (S (edge_count (entries g))) Hx)
    as (s0 & Hs0 & Hbody & Hvis & Hrun).
  split; [exact Hrun|]. exists s0. auto.
Qed.

Lemma dijkstra_self_path_witness :
  is_node reference_graph "C" /\
  dijkstra reference_graph "C" "C" = Returned (join " " ["C"]) reference_graph.
Proof.
  assert (Hc : is_node reference_graph "C") by (vm_compute; auto).
  split; [exact Hc|].
  exact (proj1 (dijkstra_self_path reference_graph "C" Hc)).
Defined.

(** ** Queries about labels that are not node keys *)

(** Whatever it is given, a call ends within the fuel of [fuel_bound] and
    leaves the graph as it was; it returns only when both labels are node
    keys. *)
Lemma dijkstra_outcome (g : Graph) (src dst : string) :
  match dijkstra g src dst with
  | Returned _ g' => g' = g /\ is_node g src /\ is_node g dst
  | Raised _ g' => g' = g
  | Diverged => False
  end.
Proof.
  unfold dijkstra, dijkstra_fuel.
  destruct (init_state g src) as [s0|key] eqn:Hs0; [|reflexivity].
  destruct (init_state_inv g src s0 Hs0) as (Hsrc & Hinv0 & Hm0).
  pose proof (while_loop_rule g src dst (fun _ => True) (fun _ => True)
                (fun _ => True)) as Hrule.
  specialize (Hrule) with (fuel := fuel_bound g) (s := s0).
  assert (Hrun : match while_loop (fuel_bound g) src dst s0 with
                 | Returned s' g' =>
                     g' = g /\ loop_inv g s' /\ True /\
                     (src = dst \/ min_heap s' = [])
                 | Raised _ g' => g' = g /\ True
                 | Diverged => False
                 end).
  { apply Hrule; auto. intros s _ _. now destruct (loop_body src dst s). }
  destruct (while_loop (fuel_bound g) src dst s0) as [s' g'|key g'|];
    [|tauto|contradiction].
  destruct Hrun as (-> & Hinv' & _).
  unfold shortest_path, dict_getitem.
  destruct (dict_get (node_data s') dst) as [d|] eqn:Hd; cbn; [|reflexivity].
  split; [reflexivity|]. split; [exact Hsrc|].
  apply (inv_keys _ _ Hinv'), dict_get_in_keys. eauto.
Qed.

(** C4, as amended.  Whenever [src] or [dst] is not a node key of the graph,
    [dijkstra] raises [KeyError] and leaves the graph as it was; it never
    returns a result. *)
Theorem dijkstra_missing_node_raises (g : Graph) (src dst : string) :
  ~ is_node g src \/ ~ is_node g dst ->
  exists key, dijkstra g src dst = Raised key g.
Proof.
  intros Hmiss. pose proof (dijkstra_outcome g src dst) as Hout.
  destruct (dijkstra g src dst) as [r g'|key g'|].
  - destruct Hout as (_ & Hsrc & Hdst). tauto.
  - subst g'. now exists key.
  - contradiction.
Qed.

Lemma dijkstra_missing_node_raises_witness :
  (~ is_node reference_graph "A" \/ ~ is_node reference_graph "Z") /\
  exists key, dijkstra reference_graph "A" "Z" = Raised key reference_graph.
Proof.
  assert (Hz : ~ is_node reference_graph "A" \/ ~ is_node reference_graph "Z").
  { right. vm_compute. intuition discriminate. }
  split; [exact Hz|].
  exact (dijkstra_missing_node_raises reference_graph "A" "Z" Hz).
Defined.

(** C4 as stated fails: there is no input with [src] or [dst] outside the
    node keys on which [dijkstra] returns. *)
Lemma dijkstra_missing_node_never_returns :
  ~ exists g src dst,
      (~ is_node g src \/ ~ is_node g dst) /\
      exists s g', dijkstra g src dst = Returned s g'.
Proof.
  intros (g & src & dst & Hmiss & s & g' & Hret).
  pose proof (dijkstra_outcome g src dst) as Hout. rewrite Hret in Hout.
  tauto.
Qed.

(** ** Unreachable destinations *)

(** C5, as amended.  On a graph with nonnegative weights whose neighbour
    keys are node keys, for node keys [src <> dst] with [dst] not reachable
    from [src], [dijkstra] returns the single label [dst] and raises
    nothing. *)
Theorem dijkstra_unreachable (g : Graph) (src dst : string) :
  nonneg_weights g -> closed_graph g ->
  is_node g src -> is_node g dst -> src <> dst ->
  ~ reachable g src dst ->
  dijkstra g src dst = Returned (join " " [dst]) g.
Proof.
  intros _ Hclosed Hsrc Hdst Hne Hunreach.
  pose (I := fun s => reaching g src (node_data s) (min_heap s)).
  destruct (dijkstra_returns g src dst I I Hclosed Hsrc Hdst)
    with (fuel := fuel_bound g)
    as (s0 & s' & d & Hs0 & Hwl & Hinv & HQ & Hend & Hd & Hrun).
  - apply reaching_init.
  - intros s Hi Hs. now apply reaching_step.
  - apply le_n.
  - unfold dijkstra. rewrite Hrun.
    destruct HQ as [_ Hpred].
    destruct (cost_at_get _ _ _ Hd) as [_ Hp].
    destruct (pred d) as [|y rest] eqn:Hpd; [reflexivity|].
    exfalso. apply Hunreach, Hpred. rewrite Hp. discriminate.
Qed.

Lemma islands_graph_unreachable : ~ reachable islands_graph "A" "B".
Proof.
  intros Hr.
  apply (reachable_within islands_graph "A"
           (fun v => v = "A" \/ v = "C")) in Hr.
  - destruct Hr; discriminate.
  - now left.
  - intros u v w Hu Hw. apply weight_in in Hw as (nb & Hnb & _ & Hv).
    destruct Hu as [-> | ->]; vm_compute in Hnb; injection Hnb as <-;
      destruct Hv as [[= <- _]|[]]; auto.
Qed.

Lemma dijkstra_unreachable_witness :
  ~ reachable islands_graph "A" "B" /\
  dijkstra islands_graph "A" "B" = Returned (join " " ["B"]) islands_graph.
Proof.
  split; [exact islands_graph_unreachable|].
  apply (dijkstra_unreachable islands_graph "A" "B").
  - apply nonneg_weightsb_sound. vm_compute. reflexivity.
  - apply closed_graphb_sound. vm_compute. reflexivity.
  - vm_compute. auto.
  - vm_compute. auto.
  - discriminate.
  - exact islands_graph_unreachable.
Defined.

(** C5 as stated fails: on [dangling_graph] the weights are nonnegative,
    ["A"] and ["B"] are node keys and ["B"] is not reachable from ["A"], yet
    the query raises [KeyError] for the neighbour key ["Z"], which is not a
    node key. *)
Lemma dijkstra_unreachable_dangling_counterexample :
  nonneg_weights dangling_graph /\
  is_node dangling_graph "A" /\ is_node dangling_graph "B" /\ "A" <> "B" /\
  ~ reachable dangling_graph "A" "B" /\
  dijkstra dangling_graph "A" "B" = Raised "Z" dangling_graph /\
  dijkstra dangling_graph "A" "B" <> Returned (join " " ["B"]) dangling_graph.
Proof.
  split; [apply nonneg_weightsb_sound; vm_compute; reflexivity|].
  split; [vm_compute; auto|]. split; [vm_compute; auto|].
  split; [discriminate|]. split.
  { intros Hr.
    apply (reachable_within dangling_graph "A"
             (fun v => v = "A" \/ v = "Z")) in Hr.
    - destruct Hr; discriminate.
    - now left.
    - intros u v w Hu Hw. apply weight_in in Hw as (nb & Hnb & _ & Hv).
      destruct Hu as [-> | ->]; vm_compute in Hnb; [|discriminate].
      injection Hnb as <-. destruct Hv as [[= <- _]|[]]. auto. }
  split; [vm_compute; reflexivity|].
  vm_compute. discriminate.
Qed.

(** ** The reference fixture *)

Lemma dijkstra_reference_all :
  map (fun p => dijkstra reference_graph (fst p) (snd p))
      (product ["A"; "B"; "C"; "D"; "E"; "F"] ["A"; "B"; "C"; "D"; "E"; "F"])
  = map (fun r => Returned r reference_graph) reference_results.
Proof. vm_compute. reflexivity. Qed.

(** C7.  On the weighted reference graph [dijkstra] returns ["A C D"] for
    (A, D), ["A C E F"] for (A, F) and ["F E C A"] for (F, A). *)
Theorem dijkstra_reference_paths :
  dijkstra reference_graph "A" "D" = Returned "A C D" reference_graph /\
  dijkstra reference_graph "A" "F" = Returned "A C E F" reference_graph /\
  dijkstra reference_graph "F" "A" = Returned "F E C A" reference_graph.
Proof. repeat split; vm_compute; reflexivity. Qed.

(** ** Frame and termination *)

(** C9.  On a graph whose neighbour keys are node keys, for node keys [src]
    and [dst], [dijkstra] returns and the graph object it leaves behind is
    the graph it was given: same node keys, same neighbour mappings, same
    weights, also when the graph is a [defaultdict]. *)
Theorem dijkstra_graph_unchanged (g : Graph) (src dst : string) :
  closed_graph g -> is_node g src -> is_node g dst ->
  exists r, dijkstra g src dst = Returned r g.
Proof.
  intros Hclosed Hsrc Hdst.
  destruct (dijkstra_returns g src dst (fun _ => True) (fun _ => True)
              Hclosed Hsrc Hdst)
    with (fuel := fuel_bound g)
    as (s0 & s' & d & _ & _ & _ & _ & _ & _ & Hrun).
  - auto.
  - intros s _ _. now destruct (loop_body src dst s).
  - apply le_n.
  - eauto.
Qed.

Lemma dijkstra_graph_unchanged_witness :
  closed_graph knights_graph_3 /\
  exists r, dijkstra knights_graph_3 "A1" "C3" = Returned r knights_graph_3.
Proof.
  assert (Hc : closed_graph knights_graph_3)
    by (apply closed_graphb_sound; vm_compute; reflexivity).
  split; [exact Hc|].
  apply (dijkstra_graph_unchanged knights_graph_3 "A1" "C3" Hc).
  - vm_compute. auto 10.
  - vm_compute. auto 10.
Defined.

(** C10.  On a graph whose neighbour keys are node keys, for node keys [src]
    and [dst], the loop of [dijkstra] ends within [fuel_bound g] iterations
    (two more than the number of neighbour entries): it stops with the
    queue empty or by the [src == dst] exit, no node is marked visited
    twice, and more fuel changes nothing. *)
Theorem dijkstra_terminates (g : Graph) (src dst : string) :
  closed_graph g -> is_node g src -> is_node g dst ->
  exists s0 s' r,
    init_state g src = Ok s0 /\
    dijkstra g src dst = Returned r g /\
    forall fuel, (fuel_bound g <= fuel)%nat ->
      while_loop fuel src dst s0 = Returned s' g /\
      NoDup (visited s') /\
      (src = dst \/ min_heap s' = []) /\
      dijkstra_fuel fuel g src dst = Returned r g.
Proof.
  intros Hclosed Hsrc Hdst.
  destruct (dijkstra_returns g src dst (fun _ => True) (fun _ => True)
              Hclosed Hsrc Hdst)
    with (fuel := fuel_bound g)
    as (s0 & s' & d & Hs0 & Hwl & Hinv & _ & Hend & Hd & Hrun).
  - auto.
  - intros s _ _. now destruct (loop_body src dst s).
  - apply le_n.
  - exists s0, s', (join " " (pred d ++ [dst])).
    split; [exact Hs0|]. split; [exact Hrun|].
    intros fuel Hfuel.
    assert (Hwl' : while_loop fuel src dst s0 = Returned s' g).
    { rewrite (while_loop_more_fuel src dst (fuel_bound g) fuel s0 Hfuel);
        [exact Hwl|]. rewrite Hwl. discriminate. }
    split; [exact Hwl'|]. split; [apply (inv_nodup _ _ Hinv)|].
    split; [exact Hend|].
    unfold dijkstra_fuel. rewrite Hs0, Hwl'.
    unfold shortest_path, dict_getitem. now rewrite Hd.
Qed.

Lemma dijkstra_terminates_witness :
  closed_graph reference_graph /\
  exists s0 s' r,
    init_state reference_graph "A" = Ok s0 /\
    dijkstra reference_graph "A" "F" = Returned r reference_graph /\
    forall fuel, (fuel_bound reference_graph <= fuel)%nat ->
      while_loop fuel "A" "F" s0 = Returned s' reference_graph /\
      NoDup (visited s') /\
      ("A" = "F" \/ min_heap s' = []) /\
      dijkstra_fuel fuel reference_graph "A" "F" = Returned r reference_graph.
Proof.
  split; [apply reference_graph_checked|].
  apply (dijkstra_terminates reference_graph "A" "F").
  - apply reference_graph_checked.
  - vm_compute. auto.
  - vm_compute. auto 10.
Defined.

(** ** The board *)

Lemma range_spec (n x : Z) : In x (range n) <-> (0 <= x < n)%Z.
Proof.
  unfold range. rewrite in_map_iff. split.
  - intros (k & <- & Hk). apply in_seq in Hk. lia.
  - intros Hx. exists (Z.to_nat x). split; [lia|]. apply in_seq. lia.
Qed.

Lemma board_spec (n : Z) (rc : coord) : In rc (board n) <-> on_board n rc.
Proof.
  destruct rc as [r c]. unfold board, product, on_board. cbn [fst snd].
  rewrite <- !range_spec. apply in_prod_iff.
Qed.

Lemma distinct_sound {K : Type} `{HashableLaws K} (xs : list K) :
  distinct xs = true -> NoDup xs.
Proof.
  induction xs as [|x xs IH]; cbn [distinct]; [constructor|].
  rewrite andb_true_iff, negb_true_iff. intros [Hx Hxs].
  constructor; [|auto]. intros Hin.
  assert (Hex : existsb (key_eqb x) xs = true).
  { apply existsb_exists. exists x. split; [exact Hin|apply key_eqb_eq; auto]. }
  congruence.
Qed.

Lemma dict_get_of_in {K V : Type} `{HashableLaws K} (d : dict K V) (k : K)
    (v : V) :
  NoDup (dict_keys d) -> In (k, v) d -> dict_get d k = Some v.
Proof.
  induction d as [|[k' v'] d IH]; cbn; [tauto|].
  intros Hnd Hin. inversion Hnd as [|? ? Hk' Hnd']; subst.
  destruct (key_eqb_spec k' k) as [->|Hne].
  - destruct Hin as [[= ->]|Hin]; [reflexivity|].
    exfalso. apply Hk'. apply in_map_iff. now exists (k, v).
  - destruct Hin as [[= -> ->]|Hin]; [congruence|auto].
Qed.

(** ** The coordinate labels *)

Lemma mapping_checked (rc : coord) : on_board 8 rc -> mapping_ok rc = true.
Proof.
  intros Hrc. apply board_spec in Hrc. revert rc Hrc.
  apply forallb_forall. vm_compute. reflexivity.
Qed.

Lemma mapping_keys : dict_keys get_mapping = board 8.
Proof. vm_compute. reflexivity. Qed.

Lemma mapping_labels :
  map snd get_mapping
  = map (fun rc => square_label (fst rc) (snd rc)) (board 8).
Proof. vm_compute. reflexivity. Qed.

Lemma mapping_keys_nodup : NoDup (dict_keys get_mapping).
Proof. apply distinct_sound. vm_compute. reflexivity. Qed.

Lemma mapping_get (r c : Z) :
  on_board 8 (r, c) ->
  dict_get get_mapping (r, c) = Some (square_label r c) /\
  mapping_inverse get_mapping (square_label r c) = Some (r, c).
Proof.
  intros Hrc. pose proof (mapping_checked (r, c) Hrc) as Hok.
  unfold mapping_ok in Hok. cbn [fst snd] in Hok.
  destruct (dict_get get_mapping (r, c)) as [l|]; [|discriminate].
  apply andb_true_iff in Hok as [Hl Hinv]. apply String.eqb_eq in Hl. subst l.
  split; [reflexivity|].
  destruct (mapping_inverse get_mapping (square_label r c)) as [rc'|];
    [|discriminate].
  f_equal. apply (key_eqb_eq (K := coord)). exact Hinv.
Qed.

Lemma mapping_get_on_board (rc : coord) (l : string) :
  dict_get get_mapping rc = Some l ->
  on_board 8 rc /\ l = square_label (fst rc) (snd rc) /\
  mapping_inverse get_mapping l = Some rc.
Proof.
  intros Hget.
  assert (Hrc : on_board 8 rc).
  { apply board_spec. rewrite <- mapping_keys. apply dict_get_in_keys. eauto. }
  destruct rc as [r c]. destruct (mapping_get r c Hrc) as [Hl Hinv].
  assert (l = square_label r c) by congruence. subst l. auto.
Qed.

(** C8.  [get_mapping] is a bijection between the 64 coordinates (r, c) with
    r, c in [0, 8) and the 64 labels A1..H8: its keys are exactly those
    coordinates, each once; (r, c) maps to the letter numbered r from ['A']
    followed by the digit numbered c from ['1']; no label is given to two
    coordinates; the labels are exactly those of the board; and reading the
    mapping backwards undoes it, in both directions. *)
Theorem get_mapping_bijection :
  List.length get_mapping = 64%nat /\
  NoDup (dict_keys get_mapping) /\
  (forall rc, In rc (dict_keys get_mapping) <-> on_board 8 rc) /\
  square_label 0 0 = "A1" /\ square_label 7 7 = "H8" /\
  (forall r c, on_board 8 (r, c) ->
     dict_get get_mapping (r, c) = Some (square_label r c)) /\
  (forall rc rc' l,
     dict_get get_mapping rc = Some l -> dict_get get_mapping rc' = Some l ->
     rc = rc') /\
  (forall l, In l (map snd get_mapping) <->
     exists r c, on_board 8 (r, c) /\ l = square_label r c) /\
  (forall r c, on_board 8 (r, c) ->
     mapping_inverse get_mapping (square_label r c) = Some (r, c)) /\
  (forall l rc,
     mapping_inverse get_mapping l = Some rc ->
     dict_get get_mapping rc = Some l).
Proof.
  split; [vm_compute; reflexivity|].
  split; [exact mapping_keys_nodup|].
  split; [intros rc; rewrite mapping_keys; apply board_spec|].
  split; [reflexivity|]. split; [reflexivity|].
  split; [intros r c Hrc; apply (mapping_get r c Hrc)|].
  split.
  { intros rc rc' l Hl Hl'.
    apply mapping_get_on_board in Hl as (_ & _ & Hi).
    apply mapping_get_on_board in Hl' as (_ & _ & Hi'). congruence. }
  split.
  { intros l. rewrite mapping_labels, in_map_iff. split.
    - intros ([r c] & <- & Hrc). apply board_spec in Hrc. eauto.
    - intros (r & c & Hrc & ->). exists (r, c). split; [reflexivity|].
      now apply board_spec. }
  split; [intros r c Hrc; apply (mapping_get r c Hrc)|].
  intros l [r c] Hinv. unfold mapping_inverse in Hinv.
  destruct (find (fun kv => String.eqb (snd kv) l) get_mapping)
    as [[rc' l']|] eqn:Hfind; [|discriminate].
  injection Hinv as ->. apply find_some in Hfind as [Hin Heq].
  cbn [snd] in Heq. apply String.eqb_eq in Heq. subst l'.
  apply dict_get_of_in; [exact mapping_keys_nodup|exact Hin].
Qed.

(** ** The knight's graph *)

Lemma generate_permitted_moves_fixture :
  map (fun rc => generate_permitted_moves_from (fst rc) (snd rc) 3) (board 3)
  = [ [(2, 1); (1, 2)]; [(2, 0); (2, 2)]; [(1, 0); (2, 1)];
      [(0, 2); (2, 2)]; []; [(0, 0); (2, 0)];
      [(0, 1); (1, 2)]; [(0, 0); (0, 2)]; [(1, 0); (0, 1)] ]%Z.
Proof. vm_compute. reflexivity. Qed.

Lemma build_knights_graph_fixture :
  build_knights_graph 3 = Ok knights_graph_3.
Proof. vm_compute. reflexivity. Qed.

Lemma knights_graph_checked (n : Z) :
  (1 <= n <= 8)%Z -> knights_graph_ok n = true.
Proof.
  intros Hn.
  assert (Hcases : (n = 1 \/ n = 2 \/ n = 3 \/ n = 4 \/
                    n = 5 \/ n = 6 \/ n = 7 \/ n = 8)%Z) by lia.
  repeat (destruct Hcases as [->|Hcases]; [vm_compute; reflexivity|]).
  subst n. vm_compute. reflexivity.
Qed.

Lemma can_move_spec (n : Z) (rc : coord) :
  can_move n rc = true <->
  generate_permitted_moves_from (fst rc) (snd rc) n <> [].
Proof.
  unfold can_move.
  destruct (generate_permitted_moves_from (fst rc) (snd rc) n);
    split; congruence.
Qed.

Lemma movable_labels_spec (n : Z) (l : string) :
  In l (movable_labels n) <->
  exists rc, on_board n rc /\
             generate_permitted_moves_from (fst rc) (snd rc) n <> [] /\
             dict_get get_mapping rc = Some l.
Proof.
  unfold movable_labels. rewrite in_flat_map. split.
  - intros (rc & Hrc & Hin). exists rc. rewrite <- board_spec, <- can_move_spec.
    destruct (can_move n rc); [|destruct Hin].
    destruct (dict_get get_mapping rc) as [l'|]; [|destruct Hin].
    destruct Hin as [->|[]]. auto.
  - intros (rc & Hrc & Hmove & Hl). exists rc.
    apply board_spec in Hrc. apply can_move_spec in Hmove.
    rewrite Hmove, Hl. split; [exact Hrc|now left].
Qed.

(** What [knights_graph_ok] establishes about the graph it has checked. *)
Lemma knights_graph_facts (n : Z) :
  (1 <= n <= 8)%Z ->
  exists g,
    build_knights_graph n = Ok g /\
    NoDup (dict_keys (entries g)) /\
    (forall l, is_node g l <-> In l (movable_labels n)) /\
    symmetric_unitb g = true /\
    ((4 <= n)%Z ->
       (forall rc, on_board n rc -> can_move n rc = true) /\
       List.length (dict_keys (entries g)) = Z.to_nat (n * n)).
Proof.
  intros Hn. pose proof (knights_graph_checked n Hn) as Hok.
  unfold knights_graph_ok in Hok.
  destruct (build_knights_graph n) as [g|key]; [|discriminate].
  apply andb_true_iff in Hok as [Hok Hbig].
  apply andb_true_iff in Hok as [Hok Hclosed].
  apply andb_true_iff in Hok as [Hok Hsym].
  apply andb_true_iff in Hok as [Hok Hsup].
  apply andb_true_iff in Hok as [Hok Hsub].
  apply andb_true_iff in Hok as [_ Hdist].
  exists g. split; [reflexivity|].
  split; [now apply distinct_sound|].
  split.
  { intros l. unfold is_node. split; intros Hl.
    - rewrite forallb_forall in Hsub. apply str_in_true. auto.
    - rewrite forallb_forall in Hsup. apply str_in_true. auto. }
  split; [assumption|].
  intros H4. apply orb_true_iff in Hbig as [Hlt|Hall]; [lia|].
  apply andb_true_iff in Hall as [Hall Hlen]. split.
  - intros rc Hrc. rewrite forallb_forall in Hall. apply Hall.
    now apply board_spec.
  - lia.
Qed.

(** C1, as amended.  For every board size N with 1 <= N <= 8,
    [build_knights_graph] returns a graph whose node keys, each listed once,
    are exactly the labels of the squares of the N x N board that have at
    least one legal knight move; for 4 <= N <= 8 these are all N * N
    labels.  A square with no legal knight move is not a node key. *)
Theorem knights_graph_nodes (n : Z) :
  (1 <= n <= 8)%Z ->
  exists g,
    build_knights_graph n = Ok g /\
    NoDup (dict_keys (entries g)) /\
    (forall l, is_node g l <->
       exists rc, on_board n rc /\
                  generate_permitted_moves_from (fst rc) (snd rc) n <> [] /\
                  dict_get get_mapping rc = Some l) /\
    ((4 <= n)%Z ->
       (forall rc, on_board n rc ->
          exists l, dict_get get_mapping rc = Some l /\ is_node g l) /\
       List.length (dict_keys (entries g)) = Z.to_nat (n * n)).
Proof.
  intros Hn.
  destruct (knights_graph_facts n Hn) as (g & Hg & Hnd & Hkeys & _ & Hall).
  exists g. split; [exact Hg|]. split; [exact Hnd|].
  split; [intros l; rewrite Hkeys; apply movable_labels_spec|].
  intros H4. destruct (Hall H4) as [Hmove Hlen]. split; [|exact Hlen].
  intros [r c] Hrc.
  assert (Hrc8 : on_board 8 (r, c)) by (unfold on_board in *; cbn in *; lia).
  destruct (mapping_get r c Hrc8) as [Hl _].
  exists (square_label r c). split; [exact Hl|].
  apply Hkeys, movable_labels_spec. exists (r, c).
  split; [exact Hrc|]. split; [|exact Hl].
  apply can_move_spec. auto.
Qed.

Lemma knights_graph_nodes_witness :
  (1 <= 8 <= 8)%Z /\
  exists g,
    build_knights_graph 8 = Ok g /\
    NoDup (dict_keys (entries g)) /\
    (forall l, is_node g l <->
       exists rc, on_board 8 rc /\
                  generate_permitted_moves_from (fst rc) (snd rc) 8 <> [] /\
                  dict_get get_mapping rc = Some l) /\
    ((4 <= 8)%Z ->
       (forall rc, on_board 8 rc ->
          exists l, dict_get get_mapping rc = Some l /\ is_node g l) /\
       List.length (dict_keys (entries g)) = Z.to_nat (8 * 8)).
Proof.
  split; [lia|]. apply (knights_graph_nodes 8). lia.
Defined.

(** C1 as stated fails on the 3 x 3 board: its centre, labelled ["B2"], has
    no legal knight move and is no node key of the graph, which has 8 keys
    and not 9. *)
Lemma knights_graph_center_missing :
  build_knights_graph 3 = Ok knights_graph_3 /\
  on_board 3 (1, 1)%Z /\
  dict_get get_mapping (1, 1)%Z = Some "B2" /\
  generate_permitted_moves_from 1 1 3 = [] /\
  ~ is_node knights_graph_3 "B2" /\
  List.length (dict_keys (entries knights_graph_3)) = 8%nat.
Proof.
  split; [vm_compute; reflexivity|].
  split; [unfold on_board; cbn; lia|].
  split; [vm_compute; reflexivity|].
  split; [vm_compute; reflexivity|].
  split; [|reflexivity].
  vm_compute. intuition discriminate.
Qed.

(** C6.  For every board size N with 1 <= N <= 8, the graph returned by
    [build_knights_graph] is symmetric: the neighbour mapping of A holds B
    with weight w if and only if that of B holds A with weight w; and every
    weight is 1. *)
Theorem knights_graph_symmetric (n : Z) :
  (1 <= n <= 8)%Z ->
  exists g,
    build_knights_graph n = Ok g /\
    (forall a b w, weight g a b = Some w <-> weight g b a = Some w) /\
    (forall a b w, weight g a b = Some w -> w = 1%Z).
Proof.
  intros Hn.
  destruct (knights_graph_facts n Hn) as (g & Hg & _ & _ & Hsym & _).
  exists g. split; [exact Hg|].
  assert (Hedge : forall a b w, weight g a b = Some w ->
                    w = 1%Z /\ weight g b a = Some 1%Z).
  { intros a b w Hw. apply (all_edges_spec g _ Hsym) in Hw.
    apply andb_true_iff in Hw as [Hw1 Hrev]. apply Z.eqb_eq in Hw1.
    split; [exact Hw1|].
    destruct (weight g b a) as [w'|]; [|discriminate].
    apply Z.eqb_eq in Hrev. now subst. }
  split.
  - intros a b w. split; intros Hw; destruct (Hedge _ _ _ Hw) as [-> Hrev];
      exact Hrev.
  - intros a b w Hw. now destruct (Hedge _ _ _ Hw).
Qed.

Lemma knights_graph_symmetric_witness :
  (1 <= 8 <= 8)%Z /\
  exists g,
    build_knights_graph 8 = Ok g /\
    (forall a b w, weight g a b = Some w <-> weight g b a = Some w) /\
    (forall a b w, weight g a b = Some w -> w = 1%Z).
Proof.
  split; [lia|]. apply (knights_graph_symmetric 8). lia.
Defined.

(** * Further properties of the code *)

(** ** Knight moves *)

Lemma permitted_offsets (dr dc : Z) :
  In (dr, dc) PERMITTED_MOVES <->
  ((Z.abs dr = 1 /\ Z.abs dc = 2) \/ (Z.abs dr = 2 /\ Z.abs dc = 1))%Z.
Proof.
  unfold PERMITTED_MOVES. cbn [In]. split.
  - intros H. repeat (destruct H as [[= <- <-]|H]; [lia|]). destruct H.
  - intros H.
    assert (Hcases : ((dr = -1 /\ dc = -2) \/ (dr = 1 /\ dc = -2) \/
                      (dr = -2 /\ dc = -1) \/ (dr = 2 /\ dc = -1) \/
                      (dr = -2 /\ dc = 1) \/ (dr = 2 /\ dc = 1) \/
                      (dr = -1 /\ dc = 2) \/ (dr = 1 /\ dc = 2))%Z) by lia.
    repeat (destruct Hcases as [[-> ->]|Hcases]; [tauto|]).
    destruct Hcases as [-> ->]. tauto.
Qed.

Lemma permitted_moves_in (row col board_size : Z) (rc : coord) :
  In rc (generate_permitted_moves_from row col board_size) <->
  on_board board_size rc /\ knight_move (row, col) rc.
Proof.
  unfold generate_permitted_moves_from, on_board, knight_move.
  rewrite in_flat_map. destruct rc as [r c]. cbn [fst snd]. split.
  - intros ([dr dc] & Hoff & Hin). apply permitted_offsets in Hoff.
    cbn [fst snd] in Hin.
    destruct ((0 <=? row + dr) && (row + dr <? board_size)
              && ((0 <=? col + dc) && (col + dc <? board_size)))%Z eqn:Hb;
      [|destruct Hin].
    destruct Hin as [[= <- <-]|[]].
    rewrite !andb_true_iff, !Z.leb_le, !Z.ltb_lt in Hb. lia.
  - intros (Hboard & Hmove). exists (r - row, c - col)%Z. split.
    + apply permitted_offsets. lia.
    + cbn [fst snd].
      replace (row + (r - row))%Z with r by lia.
      replace (col + (c - col))%Z with c by lia.
      assert (Hb : ((0 <=? r) && (r <? board_size)
                    && ((0 <=? c) && (c <? board_size)))%Z = true).
      { rewrite !andb_true_iff, !Z.leb_le, !Z.ltb_lt. lia. }
      rewrite Hb. now left.
Qed.

Lemma permitted_moves_nodup : NoDup PERMITTED_MOVES.
Proof.
  unfold PERMITTED_MOVES.
  repeat (constructor; [cbn [In]; intuition discriminate|]). constructor.
Qed.

Lemma permitted_moves_filter (row col board_size : Z) :
  generate_permitted_moves_from row col board_size
  = map (fun off => (row + fst off, col + snd off)%Z)
        (filter
           (fun off =>
              ((0 <=? row + fst off) && (row + fst off <? board_size)
               && ((0 <=? col + snd off) && (col + snd off <? board_size)))%Z)
           PERMITTED_MOVES).
Proof.
  unfold generate_permitted_moves_from.
  induction PERMITTED_MOVES as [|off offs IH]; [reflexivity|].
  cbn [flat_map filter]. rewrite IH.
  now destruct ((0 <=? row + fst off) && (row + fst off <? board_size)
                && ((0 <=? col + snd off) && (col + snd off <? board_size)))%Z.
Qed.

(** X1.  Whatever the board size and wherever (row, col) lies, the moves
    that [generate_permitted_moves_from] yields are exactly the squares of
    the board a knight's move away from (row, col); no square is yielded
    twice, so there are at most 8. *)
Theorem generate_permitted_moves_exact (row col board_size : Z) :
  (forall rc,
     In rc (generate_permitted_moves_from row col board_size) <->
     on_board board_size rc /\ knight_move (row, col) rc) /\
  NoDup (generate_permitted_moves_from row col board_size) /\
  (List.length (generate_permitted_moves_from row col board_size) <= 8)%nat.
Proof.
  split; [intros rc; apply permitted_moves_in|].
  rewrite permitted_moves_filter. split.
  - apply Injective_map_NoDup.
    + intros [a b] [a' b'] Heq. cbn [fst snd] in Heq.
      injection Heq as Ha Hb. f_equal; lia.
    + apply NoDup_filter, permitted_moves_nodup.
  - rewrite length_map.
    match goal with
    | |- (List.length (filter ?f ?l) <= _)%nat =>
        pose proof (filter_length_le f l) as Hle
    end.
    cbn [PERMITTED_MOVES List.length] in Hle. exact Hle.
Qed.

(** X2.  Knight moves are reversible: when (row, col) is on the board, every
    square generated from it generates (row, col) in turn. *)
Theorem generate_permitted_moves_reversible (row col board_size : Z)
    (rc : coord) :
  on_board board_size (row, col) ->
  In rc (generate_permitted_moves_from row col board_size) ->
  In (row, col)
     (generate_permitted_moves_from (fst rc) (snd rc) board_size).
Proof.
  intros Hboard Hin. apply permitted_moves_in in Hin as [_ Hmove].
  apply permitted_moves_in. split; [exact Hboard|].
  destruct rc as [r c]. unfold knight_move in *. cbn [fst snd] in *. lia.
Qed.

Lemma generate_permitted_moves_reversible_witness :
  on_board 8 (3, 3)%Z /\
  In (3, 3)%Z (generate_permitted_moves_from 4 5 8).
Proof.
  assert (Hb : on_board 8 (3, 3)%Z) by (unfold on_board; cbn; lia).
  split; [exact Hb|].
  apply (generate_permitted_moves_reversible 3 3 8 (4, 5)%Z Hb).
  vm_compute. auto 10.
Defined.

(** X3.  A square of the board has no legal knight move exactly when the
    board is 2 x 2 or smaller, or the square is the centre of the 3 x 3
    board. *)
Theorem generate_permitted_moves_none (row col board_size : Z) :
  on_board board_size (row, col) ->
  (generate_permitted_moves_from row col board_size = [] <->
   (board_size <= 2 \/ (board_size = 3 /\ row = 1 /\ col = 1))%Z).
Proof.
  unfold on_board. cbn [fst snd]. intros Hboard. split.
  - intros Hnil.
    destruct (Z_le_gt_dec board_size 2) as [Hsmall|Hbig]; [now left|].
    destruct (Z.eq_dec board_size 3) as [H3|H3];
      [destruct (Z.eq_dec row 1) as [Hr|Hr];
       [destruct (Z.eq_dec col 1) as [Hc|Hc]; [now right|]|]|];
      exfalso.
    all: assert (Hex : exists dr dc,
                    In (dr, dc) PERMITTED_MOVES /\
                    (0 <= row + dr < board_size)%Z /\
                    (0 <= col + dc < board_size)%Z).
    all: try (destruct (Z_lt_ge_dec (row + 2) board_size);
              destruct (Z_lt_ge_dec (col + 1) board_size);
              [exists 2%Z, 1%Z | exists 2%Z, (-1)%Z
              |exists (-2)%Z, 1%Z | exists (-2)%Z, (-1)%Z];
              (split; [apply permitted_offsets; lia|lia])).
    all: try (destruct (Z_lt_ge_dec (col + 2) board_size);
              destruct (Z_lt_ge_dec (row + 1) board_size);
              [exists 1%Z, 2%Z | exists (-1)%Z, 2%Z
              |exists 1%Z, (-2)%Z | exists (-1)%Z, (-2)%Z];
              (split; [apply permitted_offsets; lia|lia])).
    all: destruct Hex as (dr & dc & Hoff & Hr' & Hc').
    all: assert (Hin : In (row + dr, col + dc)%Z
                         (generate_permitted_moves_from row col board_size))
           by (apply permitted_moves_in; unfold on_board, knight_move;
               cbn [fst snd]; apply permitted_offsets in Hoff; lia).
    all: rewrite Hnil in Hin; destruct Hin.
  - intros Hcase.
    destruct (generate_permitted_moves_from row col board_size)
      as [|[r c] rest] eqn:Hgen; [reflexivity|].
    assert (Hin : In (r, c)
                    (generate_permitted_moves_from row col board_size))
      by (rewrite Hgen; now left).
    apply permitted_moves_in in Hin as [Hb Hmove].
    unfold on_board, knight_move in *. cbn [fst snd] in *. lia.
Qed.

Lemma generate_permitted_moves_none_witness :
  on_board 3 (1, 1)%Z /\
  (generate_permitted_moves_from 1 1 3 = [] <->
   (3 <= 2 \/ (3 = 3 /\ 1 = 1 /\ 1 = 1))%Z).
Proof.
  assert (Hb : on_board 3 (1, 1)%Z) by (unfold on_board; cbn; lia).
  split; [exact Hb|].
  exact (generate_permitted_moves_none 1 1 3 Hb).
Defined.

(** ** Adding edges *)

Lemma dict_set_same {K V : Type} `{HashableLaws K} (d : dict K V) (k : K)
    (v : V) :
  dict_get d k = Some v -> dict_set d k v = d.
Proof.
  induction d as [|[k' v'] d IH]; cbn; [discriminate|].
  destruct (key_eqb_spec k' k) as [->|Hne].
  - now intros [= ->].
  - intros Hg. f_equal. auto.
Qed.

Lemma add_neighbour_ok (g : Graph) (a b : string) :
  default_factory g = true \/ is_node g a ->
  exists g',
    add_neighbour g a b = (Ok tt, g') /\
    default_factory g' = default_factory g /\
    (forall k, is_node g' k <-> k = a \/ is_node g k) /\
    (forall u v,
       weight g' u v
       = if String.eqb u a && String.eqb v b then Some 1%Z
         else weight g u v).
Proof.
  intros Hok. unfold add_neighbour, graph_getitem.
  assert (Hweight : forall e nb,
             (forall u, u <> a -> dict_get e u = dict_get (entries g) u) ->
             (forall v, dict_get nb v = weight g a v) ->
             forall u v,
               weight {| default_factory := default_factory g;
                         entries := dict_set e a
                                      (dict_update nb [(b, 1%Z)]) |} u v
               = if String.eqb u a && String.eqb v b then Some 1%Z
                 else weight g u v).
  { intros e nb He Hnb u v. unfold weight at 1. cbn [entries dict_update
      fold_left fst snd].
    destruct (String.eqb_spec u a) as [->|Hu]; cbn [andb].
    - rewrite dict_get_set_eq.
      destruct (String.eqb_spec v b) as [->|Hv].
      + apply dict_get_set_eq.
      + rewrite dict_get_set_neq by congruence. apply Hnb.
    - rewrite dict_get_set_neq by congruence. rewrite He by exact Hu.
      reflexivity. }
  destruct (dict_get (entries g) a) as [nb|] eqn:Ha.
  - eexists. split; [reflexivity|]. split; [reflexivity|]. split.
    + intros k. unfold is_node. cbn [entries]. rewrite dict_keys_set.
      split; [tauto|]. intros [->|Hk]; [|tauto]. right.
      apply dict_get_in_keys. eauto.
    + apply Hweight; [reflexivity|].
      intros v. unfold weight. now rewrite Ha.
  - assert (Hdf : default_factory g = true).
    { destruct Hok as [Hdf|Hnode]; [exact Hdf|].
      apply dict_get_in_keys in Hnode as [nb Hnb]. congruence. }
    rewrite Hdf. eexists. split; [reflexivity|]. cbn [default_factory entries].
    split; [reflexivity|]. split.
    + intros k. unfold is_node. cbn [entries]. rewrite !dict_keys_set. tauto.
    + rewrite <- Hdf. apply Hweight.
      * intros u Hu. apply dict_get_set_neq. congruence.
      * intros v. unfold weight. now rewrite Ha.
Qed.

Lemma add_neighbour_missing (g : Graph) (a b : string) :
  default_factory g = false -> ~ is_node g a ->
  add_neighbour g a b = (KeyError a, g).
Proof.
  intros Hdf Ha. unfold add_neighbour, graph_getitem.
  apply dict_get_none in Ha. now rewrite Ha, Hdf.
Qed.

Lemma add_neighbour_present (g : Graph) (a b : string) :
  weight g a b = Some 1%Z -> add_neighbour g a b = (Ok tt, g).
Proof.
  unfold weight, add_neighbour, graph_getitem.
  destruct (dict_get (entries g) a) as [nb|] eqn:Ha; [|discriminate].
  intros Hb. cbn [dict_update fold_left fst snd].
  rewrite (dict_set_same nb b 1%Z Hb), (dict_set_same (entries g) a nb Ha).
  now destruct g.
Qed.

Lemma add_edge_ok (g : Graph) (a b : string) :
  default_factory g = true \/ (is_node g a /\ is_node g b) ->
  exists g',
    add_edge g a b = (Ok tt, g') /\
    default_factory g' = default_factory g /\
    (forall k, is_node g' k <-> k = a \/ k = b \/ is_node g k) /\
    (forall u v,
       weight g' u v
       = if String.eqb u b && String.eqb v a then Some 1%Z
         else if String.eqb u a && String.eqb v b then Some 1%Z
         else weight g u v).
Proof.
  intros Hok. unfold add_edge.
  destruct (add_neighbour_ok g a b) as (g1 & -> & Hdf1 & Hk1 & Hw1); [tauto|].
  destruct (add_neighbour_ok g1 b a) as (g2 & -> & Hdf2 & Hk2 & Hw2).
  { rewrite Hdf1, Hk1. tauto. }
  exists g2. split; [reflexivity|]. split; [congruence|]. split.
  - intros k. rewrite Hk2, Hk1. tauto.
  - intros u v. rewrite Hw2, Hw1. reflexivity.
Qed.

Lemma add_edge_succeeds (g g' : Graph) (a b : string) :
  add_edge g a b = (Ok tt, g') ->
  default_factory g = true \/ (is_node g a /\ is_node g b).
Proof.
  intros Hadd.
  destruct (default_factory g) eqn:Hdf; [now left|right].
  destruct (in_dec string_dec a (dict_keys (entries g))) as [Ha|Ha].
  - split; [exact Ha|].
    destruct (in_dec string_dec b (dict_keys (entries g))) as [Hb|Hb];
      [exact Hb|exfalso].
    unfold add_edge in Hadd.
    destruct (add_neighbour_ok g a b) as (g1 & Hn & Hdf1 & Hk1 & _);
      [now right|].
    rewrite Hn in Hadd.
    destruct (string_dec b a) as [->|Hne]; [contradiction|].
    rewrite add_neighbour_missing in Hadd; [discriminate|congruence|].
    rewrite Hk1. unfold is_node. tauto.
  - unfold add_edge in Hadd.
    rewrite (add_neighbour_missing g a b Hdf Ha) in Hadd. discriminate.
Qed.



(** X5.  Adding an edge twice is the same as adding it once: after a
    successful [add_edge], the same call succeeds again and leaves the graph
    exactly as it is. *)
Theorem add_edge_idempotent (g g' : Graph) (a b : string) :
  add_edge g a b = (Ok tt, g') -> add_edge g' a b = (Ok tt, g').
Proof.
  intros Hadd. pose proof (add_edge_succeeds g g' a b Hadd) as Hok.
  destruct (add_edge_ok g a b Hok) as (g1 & Hadd1 & _ & _ & Hw).
  assert (g1 = g') by congruence. subst g1.
  assert (Hab : weight g' a b = Some 1%Z).
  { rewrite Hw, !String.eqb_refl. cbn.
    now destruct (String.eqb a b && String.eqb b a). }
  assert (Hba : weight g' b a = Some 1%Z) by now rewrite Hw, !String.eqb_refl.
  unfold add_edge.
  now rewrite (add_neighbour_present g' a b Hab),
              (add_neighbour_present g' b a Hba).
Qed.

Lemma add_edge_idempotent_witness :
  add_edge {| default_factory := true; entries := [] |} "A1" "C2"
  = (Ok tt, {| default_factory := true;
               entries := [("A1", [("C2", 1%Z)]); ("C2", [("A1", 1%Z)])] |}) /\
  add_edge {| default_factory := true;
              entries := [("A1", [("C2", 1%Z)]); ("C2", [("A1", 1%Z)])] |}
           "A1" "C2"
  = (Ok tt, {| default_factory := true;
               entries := [("A1", [("C2", 1%Z)]); ("C2", [("A1", 1%Z)])] |}).
Proof.
  assert (H : add_edge {| default_factory := true; entries := [] |} "A1" "C2"
              = (Ok tt, {| default_factory := true;
                           entries := [("A1", [("C2", 1%Z)]);
                                       ("C2", [("A1", 1%Z)])] |}))
    by (vm_compute; reflexivity).
  split; [exact H|].
  exact (add_edge_idempotent _ _ "A1" "C2" H).
Defined.





(** ** Building the graph for other board sizes *)

Lemma for_each_app {A S : Type} (body : A -> S -> result S) (xs ys : list A)
    (s : S) :
  for_each (xs ++ ys) body s = bind (for_each xs body s) (for_each ys body).
Proof.
  revert s. induction xs as [|x xs IH]; intros s; cbn; [reflexivity|].
  destruct (body x s) as [s'|key]; cbn; auto.
Qed.

Lemma for_each_ext {A S : Type} (f g : A -> S -> result S) (xs : list A)
    (s : S) :
  (forall x s', In x xs -> f x s' = g x s') ->
  for_each xs f s = for_each xs g s.
Proof.
  revert s. induction xs as [|x xs IH]; intros s Hext; cbn; [reflexivity|].
  rewrite (Hext x s) by now left.
  destruct (g x s) as [s'|key]; cbn; [|reflexivity].
  apply IH. intros y s'' Hy. apply Hext. now right.
Qed.

Lemma range_app (n m : Z) :
  (0 <= n <= m)%Z ->
  range m = range n ++ map Z.of_nat (seq (Z.to_nat n) (Z.to_nat (m - n))).
Proof.
  intros Hnm. unfold range. rewrite <- map_app. f_equal.
  replace (Z.to_nat m) with (Z.to_nat n + Z.to_nat (m - n))%nat by lia.
  apply seq_app.
Qed.

(** The bound of the board plays no part in the moves from a square that is
    more than two rows and columns away from it. *)
Lemma generate_permitted_moves_inner (row col n m : Z) :
  (row + 2 < n)%Z -> (col + 2 < n)%Z -> (row + 2 < m)%Z -> (col + 2 < m)%Z ->
  generate_permitted_moves_from row col n
  = generate_permitted_moves_from row col m.
Proof.
  intros Hrn Hcn Hrm Hcm. rewrite !permitted_moves_filter. f_equal.
  apply filter_ext_in. intros [dr dc] Hoff. cbn [fst snd].
  apply permitted_offsets in Hoff.
  assert (Hr : ((row + dr <? n) = true /\ (row + dr <? m) = true)%Z)
    by (rewrite !Z.ltb_lt; lia).
  assert (Hc : ((col + dc <? n) = true /\ (col + dc <? m) = true)%Z)
    by (rewrite !Z.ltb_lt; lia).
  destruct Hr as [-> ->], Hc as [-> ->]. reflexivity.
Qed.

(** X8.  For every board size above 8 [build_knights_graph] raises
    [KeyError]: the mapping has no label for column 8, and the first such
    coordinate looked up is (1, 8), a move from (0, 6). *)
Theorem build_knights_graph_too_large (n : Z) :
  (9 <= n)%Z -> build_knights_graph n = KeyError "(1, 8)".
Proof.
  intros Hn. unfold build_knights_graph.
  rewrite (range_app 1 n) at 1 by lia. rewrite for_each_app.
  change (range 1) with [0%Z]. cbn [for_each].
  rewrite (range_app 7 n) by lia. rewrite for_each_app.
  rewrite (for_each_ext _
             (fun col graph =>
                for_each (generate_permitted_moves_from 0 col 9)
                  (fun to graph0 =>
                     a <- dict_getitem get_mapping (0%Z, col) ;;
                     b <- dict_getitem get_mapping to ;;
                     match add_edge graph0 a b with
                     | (Ok _, graph') => Ok graph'
                     | (KeyError key, _) => KeyError key
                     end)
                  graph)).
  - vm_compute. reflexivity.
  - intros col s' Hcol. apply range_spec in Hcol.
    rewrite (generate_permitted_moves_inner 0 col n 9) by lia. reflexivity.
Qed.

Lemma build_knights_graph_too_large_witness :
  (9 <= 20)%Z /\ build_knights_graph 20 = KeyError "(1, 8)".
Proof.
  split; [lia|]. apply (build_knights_graph_too_large 20). lia.
Defined.

(** X9.  For every board size of 2 or less, zero and negative sizes
    included, [build_knights_graph] returns the empty graph: no square is a
    key. *)
Theorem build_knights_graph_small (n : Z) :
  (n <= 2)%Z ->
  build_knights_graph n = Ok {| default_factory := true; entries := [] |}.
Proof.
  intros Hn.
  destruct (Z_le_gt_dec n 0) as [H0|H0].
  - unfold build_knights_graph, range.
    replace (Z.to_nat n) with 0%nat by lia. reflexivity.
  - assert (Hcases : n = 1%Z \/ n = 2%Z) by lia.
    destruct Hcases as [-> | ->]; vm_compute; reflexivity.
Qed.

Lemma build_knights_graph_small_witness :
  (-3 <= 2)%Z /\
  build_knights_graph (-3) = Ok {| default_factory := true; entries := [] |}.
Proof.
  split; [lia|]. apply (build_knights_graph_small (-3)). lia.
Defined.

(** ** The edges of the knight's graph *)

Lemma knights_edges_checked (n : Z) :
  (1 <= n <= 8)%Z -> knights_edges_ok n = true.
Proof.
  intros Hn.
  assert (Hcases : (n = 1 \/ n = 2 \/ n = 3 \/ n = 4 \/
                    n = 5 \/ n = 6 \/ n = 7 \/ n = 8)%Z) by lia.
  repeat (destruct Hcases as [->|Hcases]; [vm_compute; reflexivity|]).
  subst n. vm_compute. reflexivity.
Qed.

Lemma knights_graph_closed (n : Z) (g : Graph) :
  (1 <= n <= 8)%Z -> build_knights_graph n = Ok g ->
  closed_graph g /\ default_factory g = true.
Proof.
  intros Hn Hg. pose proof (knights_graph_checked n Hn) as Hok.
  unfold knights_graph_ok in Hok. rewrite Hg in Hok.
  apply andb_true_iff in Hok as [Hok _].
  apply andb_true_iff in Hok as [Hok Hclosed].
  apply andb_true_iff in Hok as [Hok _].
  apply andb_true_iff in Hok as [Hok _].
  apply andb_true_iff in Hok as [Hok _].
  apply andb_true_iff in Hok as [Hdf _].
  split; [now apply closed_graphb_sound|exact Hdf].
Qed.

Lemma labelled_spec (rc : coord) (l : string) :
  labelled rc l = true <-> dict_get get_mapping rc = Some l.
Proof.
  unfold labelled. destruct (dict_get get_mapping rc) as [l'|].
  - rewrite String.eqb_eq. split; congruence.
  - split; discriminate.
Qed.

(** X10.  For every board size N with 1 <= N <= 8, the edges of the graph
    that [build_knights_graph] returns are exactly the knight moves between
    squares of the N x N board, each with weight 1; and every neighbour key
    of the graph is one of its node keys. *)
Theorem knights_graph_edges (n : Z) :
  (1 <= n <= 8)%Z ->
  exists g,
    build_knights_graph n = Ok g /\
    closed_graph g /\
    forall a b w,
      weight g a b = Some w <->
      w = 1%Z /\
      exists rc rc',
        on_board n rc /\ on_board n rc' /\ knight_move rc rc' /\
        dict_get get_mapping rc = Some a /\
        dict_get get_mapping rc' = Some b.
Proof.
  intros Hn.
  destruct (knights_graph_facts n Hn) as (g & Hg & _ & _ & Hsym & _).
  exists g. split; [exact Hg|].
  split; [apply (knights_graph_closed n g Hn Hg)|].
  pose proof (knights_edges_checked n Hn) as Hok.
  unfold knights_edges_ok in Hok. rewrite Hg in Hok.
  apply andb_true_iff in Hok as [Hsound Hcomplete].
  intros a b w. split.
  - intros Hw.
    pose proof (all_edges_spec g _ Hsym a b w Hw) as Hunit.
    apply andb_true_iff in Hunit as [Hw1 _]. apply Z.eqb_eq in Hw1.
    split; [exact Hw1|].
    pose proof (all_edges_spec g _ Hsound a b w Hw) as Hex.
    apply existsb_exists in Hex as (rc & Hrc & Hex).
    apply andb_true_iff in Hex as [Ha Hex].
    apply existsb_exists in Hex as (rc' & Hrc' & Hb).
    apply permitted_moves_in in Hrc' as [Hboard' Hmove].
    exists rc, rc'. rewrite <- !labelled_spec.
    split; [now apply board_spec|]. split; [exact Hboard'|].
    split; [now destruct rc|]. auto.
  - intros (-> & rc & rc' & Hrc & Hrc' & Hmove & Ha & Hb).
    rewrite forallb_forall in Hcomplete.
    apply board_spec in Hrc. specialize (Hcomplete rc Hrc).
    rewrite forallb_forall in Hcomplete.
    assert (Hin : In rc' (generate_permitted_moves_from (fst rc) (snd rc) n)).
    { apply permitted_moves_in. split; [exact Hrc'|]. now destruct rc. }
    specialize (Hcomplete rc' Hin). rewrite Ha, Hb in Hcomplete.
    destruct (weight g a b) as [w|]; [|discriminate].
    apply Z.eqb_eq in Hcomplete. now subst.
Qed.

Lemma knights_graph_edges_witness :
  (1 <= 8 <= 8)%Z /\
  exists g,
    build_knights_graph 8 = Ok g /\
    closed_graph g /\
    forall a b w,
      weight g a b = Some w <->
      w = 1%Z /\
      exists rc rc',
        on_board 8 rc /\ on_board 8 rc' /\ knight_move rc rc' /\
        dict_get get_mapping rc = Some a /\
        dict_get get_mapping rc' = Some b.
Proof.
  split; [lia|]. apply (knights_graph_edges 8). lia.
Defined.

(** ** What [dijkstra] raises *)

Lemma for_each_raises {A S : Type} (body : A -> S -> result S)
    (P : S -> Prop) (xs : list A) (s0 : S) (key : string) :
  P s0 ->
  (forall x s s', P s -> In x xs -> body x s = Ok s' -> P s') ->
  for_each xs body s0 = KeyError key ->
  exists x s, In x xs /\ P s /\ body x s = KeyError key.
Proof.
  revert s0. induction xs as [|x xs IH]; intros s0 H0 Hstep Hrun;
    cbn in Hrun; [discriminate|].
  destruct (body x s0) as [s1|key'] eqn:Hb; cbn in Hrun.
  - destruct (IH s1) as (y & s & Hy & HP & Hraise).
    + eapply Hstep; eauto. now left.
    + intros y s s' HP Hy. apply Hstep; [exact HP|now right].
    + exact Hrun.
    + exists y, s. split; [now right|auto].
  - injection Hrun as ->. exists x, s0. split; [now left|auto].
Qed.

Lemma relax_raises (temp : string) (vis : list string) (nb : dict string Z)
    (j : string) (nd : dict string NodeData) (h : list heap_item)
    (key : string) :
  relax temp vis nb j (nd, h) = KeyError key ->
  (key = temp /\ dict_get nd temp = None) \/
  (key = j /\ (dict_get nb j = None \/ dict_get nd j = None)).
Proof.
  unfold relax, dict_getitem.
  destruct (str_in j vis); cbn; [discriminate|].
  destruct (dict_get nd temp) as [dt|] eqn:Ht; cbn;
    [|intros [= <-]; now left].
  destruct (dict_get nb j) as [w|] eqn:Hw; cbn;
    [|intros [= <-]; right; auto].
  destruct (dict_get nd j) as [dj|] eqn:Hj; cbn;
    [|intros [= <-]; right; auto].
  destruct (cost dt + w <? cost dj)%Z.
  - rewrite dict_get_set_eq. cbn. discriminate.
  - rewrite Hj. cbn. discriminate.
Qed.

Lemma loop_body_raises (g g' : Graph) (src dst : string) (s : LoopState)
    (key : string) :
  loop_inv g s -> loop_body src dst s = Raise key g' ->
  ~ is_node g key /\ exists u w, is_node g u /\ weight g u key = Some w.
Proof.
  intros Hinv Hbody.
  destruct (loop_body_cases g src dst s Hinv)
    as [(_ & Hb)|(c & temp & h & _ & Hnode & Hcase)]; [congruence|].
  destruct Hcase as [(_ & Hb)|[(_ & _ & Hb)|(_ & _ & nb & Hnb & Hb)]];
    try congruence.
  rewrite Hb in Hbody.
  destruct (relax_all temp (visited s ++ [temp]) nb (node_data s, h))
    as [[nd h']|key'] eqn:Hrel; [discriminate|].
  injection Hbody as -> _. unfold relax_all in Hrel.
  apply (for_each_raises _
           (fun a => dict_keys (fst a) = dict_keys (node_data s)))
    in Hrel as (j & [nd1 h1] & Hj & Hkeys & Hraise).
  - cbn [fst] in Hkeys.
    assert (Hk : forall k, In k (dict_keys nd1) <-> is_node g k)
      by (intros k; rewrite Hkeys; apply (inv_keys _ _ Hinv)).
    apply dict_get_in_keys in Hj as [w Hw].
    apply relax_raises in Hraise as [(-> & Hnone)|(-> & [Hnone|Hnone])].
    + apply dict_get_none in Hnone. rewrite Hk in Hnone. contradiction.
    + congruence.
    + apply dict_get_none in Hnone. rewrite Hk in Hnone.
      split; [exact Hnone|]. exists temp, w. split; [exact Hnode|].
      unfold weight. now rewrite Hnb.
  - reflexivity.
  - intros x [nd1 h1] [nd2 h2] Hk _ Hr. cbn [fst] in *.
    apply relax_frame in Hr as (Hk2 & _). congruence.
Qed.

(** X11.  [dijkstra] raises [KeyError] only for a label that is not a node
    key of the graph: the source, the destination, or a neighbour key of a
    node; and it leaves the graph as it was. *)
Theorem dijkstra_raises_only_missing (g g' : Graph) (src dst key : string) :
  dijkstra g src dst = Raised key g' ->
  g' = g /\ ~ is_node g key /\
  (key = src \/ key = dst \/
   exists u w, is_node g u /\ weight g u key = Some w).
Proof.
  unfold dijkstra, dijkstra_fuel.
  destruct (init_state g src) as [s0|key0] eqn:Hs0.
  - destruct (init_state_inv g src s0 Hs0) as (Hsrc & Hinv0 & Hm0).
    pose proof (while_loop_rule g src dst (fun _ => True) (fun _ => True)
                  (fun k => ~ is_node g k /\
                            exists u w, is_node g u /\
                                        weight g u k = Some w)) as Hrule.
    specialize (Hrule) with (fuel := fuel_bound g) (s := s0).
    assert (Hrun : match while_loop (fuel_bound g) src dst s0 with
                   | Returned s' g1 =>
                       g1 = g /\ loop_inv g s' /\ True /\
                       (src = dst \/ min_heap s' = [])
                   | Raised k g1 =>
                       g1 = g /\ ~ is_node g k /\
                       exists u w, is_node g u /\ weight g u k = Some w
                   | Diverged => False
                   end).
    { apply Hrule; auto. intros s Hinv _.
      pose proof (loop_body_raises g) as Hraise.
      destruct (loop_body src dst s) as [s'|s'|k g1] eqn:Hb; auto.
      eapply Hraise; eauto. }
    destruct (while_loop (fuel_bound g) src dst s0) as [s' g1|k g1|];
      [| |contradiction].
    + destruct Hrun as (-> & Hinv' & _).
      unfold shortest_path, dict_getitem.
      destruct (dict_get (node_data s') dst) as [d|] eqn:Hd; cbn;
        [discriminate|].
      intros [= <- <-]. split; [reflexivity|].
      apply dict_get_none in Hd. rewrite (inv_keys _ _ Hinv') in Hd. auto.
    + destruct Hrun as (-> & Hk & Hedge). intros [= <- <-]. auto.
  - intros [= <- <-]. split; [reflexivity|].
    destruct (in_dec string_dec src (dict_keys (entries g))) as [Hin|Hnin].
    + destruct (init_state_node g src Hin) as (s & Hs & _). congruence.
    + rewrite (init_state_missing g src Hnin) in Hs0.
      injection Hs0 as <-. auto.
Qed.

Lemma dijkstra_raises_only_missing_witness :
  dijkstra dangling_graph "A" "B" = Raised "Z" dangling_graph /\
  ~ is_node dangling_graph "Z".
Proof.
  assert (H : dijkstra dangling_graph "A" "B" = Raised "Z" dangling_graph)
    by (vm_compute; reflexivity).
  split; [exact H|].
  exact (proj1 (proj2 (dijkstra_raises_only_missing _ _ "A" "B" "Z" H))).
Defined.

(** ** The predecessor chains *)

Lemma chain_inv_init (g : Graph) (src : string) (vis : list string) :
  chain_inv g vis
    (dict_set (init_node_data g) src {| cost := 0; pred := [] |}).
Proof.
  intros v. rewrite pred_at_init. split; [constructor|].
  split; [intros x []|]. exists v, 0%Z. constructor.
Qed.

Lemma chain_inv_mono (g : Graph) (vis vis' : list string)
    (nd : dict string NodeData) :
  (forall x, In x vis -> In x vis') -> chain_inv g vis nd ->
  chain_inv g vis' nd.
Proof.
  intros Hsub Hc v. destruct (Hc v) as (Hnd & Hin & Hwalk).
  split; [exact Hnd|]. split; [|exact Hwalk].
  intros x Hx. destruct (Hin x Hx). auto.
Qed.

Lemma chain_inv_relax (g : Graph) (temp : string) (vis : list string)
    (nb : dict string Z) (j : string) (nd nd' : dict string NodeData)
    (h h' : list heap_item) :
  dict_get (entries g) temp = Some nb -> In temp vis ->
  chain_inv g vis nd ->
  relax temp vis nb j (nd, h) = Ok (nd', h') ->
  chain_inv g vis nd'.
Proof.
  intros Hnb Htemp Hc Hrel. apply relax_spec in Hrel.
  destruct Hrel as [(_ & -> & _)|(Hj & dt & w & dj & Ht & Hw & _ & Hcase)];
    [exact Hc|].
  destruct Hcase as [(_ & -> & _)|(_ & -> & _)]; [|exact Hc].
  destruct (cost_at_get nd temp dt Ht) as [_ Hpt].
  destruct (Hc temp) as (Hnd & Hin & x & W & Hwalk).
  intros v. destruct (string_dec j v) as [<-|Hne].
  - destruct (cost_at_set_eq nd j
                {| cost := (cost dt + w)%Z; pred := pred dt ++ [temp] |})
      as [_ ->].
    cbn [pred]. rewrite <- Hpt. split.
    + apply NoDup_app; [exact Hnd|repeat constructor; tauto|].
      intros y Hy [Heq|[]]. subst y. now destruct (Hin temp Hy).
    + split.
      * intros y Hy. apply in_app_or in Hy as [Hy|[<-|[]]].
        -- destruct (Hin y Hy) as [Hv _]. split; [exact Hv|].
           intros ->. contradiction.
        -- split; [exact Htemp|]. intros ->. contradiction.
      * exists x, (W + w)%Z. apply walk_step with (u := temp); [exact Hwalk|].
        unfold weight. now rewrite Hnb.
  - destruct (cost_at_set_neq nd j v
                {| cost := (cost dt + w)%Z; pred := pred dt ++ [temp] |} Hne)
      as [_ ->].
    apply Hc.
Qed.

Lemma chain_inv_step (g : Graph) (src dst : string) (s : LoopState) :
  loop_inv g s -> chain_inv g (visited s) (node_data s) ->
  match loop_body src dst s with
  | Continue s' => chain_inv g (visited s') (node_data s')
  | Break s' => chain_inv g (visited s') (node_data s')
  | Raise _ _ => True
  end.
Proof.
  intros Hinv Hc.
  destruct (loop_body_cases g src dst s Hinv)
    as [(_ & ->)|(c & temp & h & _ & _ & Hcase)]; [exact Hc|].
  destruct Hcase as [(_ & ->)|[(_ & _ & ->)|(_ & _ & nb & Hnb & ->)]];
    try exact Hc.
  destruct (relax_all temp (visited s ++ [temp]) nb (node_data s, h))
    as [[nd h']|key] eqn:Hrel; [|exact I].
  cbn [node_data visited]. unfold relax_all in Hrel.
  assert (Htemp : In temp (visited s ++ [temp]))
    by (apply in_or_app; right; now left).
  pose (P := fun (_ : list string)
                 (a : dict string NodeData * list heap_item) =>
               chain_inv g (visited s ++ [temp]) (fst a)).
  assert (HP : P (dict_keys nb) (nd, h')); [|exact HP].
  apply (for_each_ind (relax temp (visited s ++ [temp]) nb) P _
           (node_data s, h)); [| |exact Hrel].
  - unfold P. cbn [fst]. apply (chain_inv_mono g (visited s)); [|exact Hc].
    intros x Hx. apply in_or_app. now left.
  - intros done j [nd1 h1] [nd2 h2] HP _ Hr. unfold P in *. cbn [fst] in *.
    eapply chain_inv_relax; eauto.
Qed.

(** X12.  Whatever the weights, on a graph whose neighbour keys are node
    keys and for node keys [src] and [dst], the labels [dijkstra] joins into
    its result are pairwise distinct, each consecutive pair is an edge of the
    graph, and the last is [dst]. *)
Theorem dijkstra_path_distinct (g : Graph) (src dst : string) :
  closed_graph g -> is_node g src -> is_node g dst ->
  exists p x W,
    dijkstra g src dst = Returned (join " " p) g /\
    NoDup p /\ walk g x p dst W.
Proof.
  intros Hclosed Hsrc Hdst.
  pose (I := fun s => chain_inv g (visited s) (node_data s)).
  destruct (dijkstra_returns g src dst I I Hclosed Hsrc Hdst)
    with (fuel := fuel_bound g)
    as (s0 & s' & d & Hs0 & _ & _ & HQ & _ & Hd & Hrun).
  - intros s0 Hs0.
    destruct (init_state_node g src Hsrc) as (s & Hs & _ & Hnd & _).
    assert (s = s0) by congruence. subst s. unfold I. rewrite Hnd.
    apply chain_inv_init.
  - intros s Hinv Hs. now apply chain_inv_step.
  - apply le_n.
  - destruct (cost_at_get _ _ _ Hd) as [_ Hp].
    destruct (HQ dst) as (Hnd & Hin & x & W & Hwalk). rewrite Hp in *.
    exists (pred d ++ [dst]), x, W. split; [exact Hrun|].
    split; [|exact Hwalk].
    apply NoDup_app; [exact Hnd|repeat constructor; tauto|].
    intros y Hy [Heq|[]]. subst y. now destruct (Hin dst Hy).
Qed.

Lemma dijkstra_path_distinct_witness :
  closed_graph reference_graph /\
  exists p x W,
    dijkstra reference_graph "F" "A" = Returned (join " " p) reference_graph /\
    NoDup p /\ walk reference_graph x p "A" W.
Proof.
  split; [apply reference_graph_checked|].
  apply (dijkstra_path_distinct reference_graph "F" "A").
  - apply reference_graph_checked.
  - vm_compute. auto 10.
  - vm_compute. auto 10.
Defined.

(** ** The sentinel *)

Lemma sentinel_inv_init (g : Graph) (src : string) :
  sentinel_inv (dict_set (init_node_data g) src {| cost := 0; pred := [] |}).
Proof.
  intros v. rewrite pred_at_init, cost_at_init. pose proof sys_maxsize_pos.
  split; [destruct (String.eqb src v); lia|congruence].
Qed.

Lemma sentinel_inv_relax (temp : string) (vis : list string)
    (nb : dict string Z) (j : string) (nd nd' : dict string NodeData)
    (h h' : list heap_item) :
  sentinel_inv nd ->
  relax temp vis nb j (nd, h) = Ok (nd', h') ->
  sentinel_inv nd'.
Proof.
  intros Hs Hrel. apply relax_spec in Hrel.
  destruct Hrel as [(_ & -> & _)|(_ & dt & w & dj & _ & _ & Hj & Hcase)];
    [exact Hs|].
  destruct Hcase as [(Hlt & -> & _)|(_ & -> & _)]; [|exact Hs].
  destruct (cost_at_get nd j dj Hj) as [Hcj _].
  intros v. destruct (string_dec j v) as [<-|Hne].
  - destruct (cost_at_set_eq nd j
                {| cost := (cost dt + w)%Z; pred := pred dt ++ [temp] |})
      as [-> _].
    cbn [cost]. destruct (Hs j) as [Hle _]. lia.
  - destruct (cost_at_set_neq nd j v
                {| cost := (cost dt + w)%Z; pred := pred dt ++ [temp] |} Hne)
      as [-> ->].
    apply Hs.
Qed.

Lemma sentinel_inv_step (g : Graph) (src dst : string) (s : LoopState) :
  loop_inv g s -> sentinel_inv (node_data s) ->
  match loop_body src dst s with
  | Continue s' => sentinel_inv (node_data s')
  | Break s' => sentinel_inv (node_data s')
  | Raise _ _ => True
  end.
Proof.
  intros Hinv Hs.
  destruct (loop_body_cases g src dst s Hinv)
    as [(_ & ->)|(c & temp & h & _ & _ & Hcase)]; [exact Hs|].
  destruct Hcase as [(_ & ->)|[(_ & _ & ->)|(_ & _ & nb & Hnb & ->)]];
    try exact Hs.
  destruct (relax_all temp (visited s ++ [temp]) nb (node_data s, h))
    as [[nd h']|key] eqn:Hrel; [|exact I].
  cbn [node_data]. unfold relax_all in Hrel.
  pose (P := fun (_ : list string)
                 (a : dict string NodeData * list heap_item) =>
               sentinel_inv (fst a)).
  assert (HP : P (dict_keys nb) (nd, h')); [|exact HP].
  apply (for_each_ind (relax temp (visited s ++ [temp]) nb) P _
           (node_data s, h)); [exact Hs| |exact Hrel].
  intros done j [nd1 h1] [nd2 h2] HP _ Hr. unfold P in *. cbn [fst] in *.
  eapply sentinel_inv_relax; eauto.
Qed.

(** The outcome of a search between two different node keys on a graph with
    nonnegative weights and no dangling neighbour key. *)
Lemma search_result (g : Graph) (src dst : string) :
  nonneg_weights g -> closed_graph g ->
  is_node g src -> is_node g dst -> src <> dst ->
  exists d,
    dijkstra g src dst = Returned (join " " (pred d ++ [dst])) g /\
    dijkstra_labels g src dst = Some (pred d ++ [dst]) /\
    (forall q W, walk g src q dst W -> (cost d <= W)%Z) /\
    ((cost d < sys_maxsize)%Z -> walk g src (pred d ++ [dst]) dst (cost d)) /\
    (pred d <> [] -> (cost d < sys_maxsize)%Z).
Proof.
  intros Hnonneg Hclosed Hsrc Hdst Hne.
  pose (I := fun s => searching g src s /\ sentinel_inv (node_data s)).
  destruct (dijkstra_returns g src dst I I Hclosed Hsrc Hdst)
    with (fuel := fuel_bound g)
    as (s0 & s' & d & Hs0 & Hwl & _ & [HQ HS] & Hend & Hd & Hrun).
  - intros s0 Hs0. split; [now apply searching_init|].
    destruct (init_state_node g src Hsrc) as (s & Hs & _ & Hnd & _).
    assert (s = s0) by congruence. subst s. rewrite Hnd.
    apply sentinel_inv_init.
  - intros s Hinv [Hs HS].
    pose proof (searching_step g src dst s Hnonneg Hne Hinv Hs) as H1.
    pose proof (sentinel_inv_step g src dst s Hinv HS) as H2.
    destruct (loop_body src dst s); unfold I; auto.
  - apply le_n.
  - destruct Hend as [Heq|Hnil]; [contradiction|].
    unfold searching in HQ. rewrite Hnil in HQ.
    destruct (cost_at_get _ _ _ Hd) as [Hc Hp].
    exists d. split; [exact Hrun|]. split.
    { unfold dijkstra_labels. rewrite Hs0, Hwl.
      unfold shortest_path, dict_getitem. now rewrite Hd. }
    split.
    + intros q W Hq. rewrite <- Hc.
      eapply search_inv_lower_bound; eauto.
    + split.
      * intros Hlt. rewrite <- Hc, <- Hp.
        apply (si_walk _ _ _ _ _ _ HQ). now rewrite Hc.
      * intros Hpred. rewrite <- Hc. apply (HS dst). now rewrite Hp.
Qed.

(** X13.  On a graph with nonnegative weights whose neighbour keys are node
    keys, for node keys [src <> dst]: when every walk from [src] to [dst]
    weighs [sys.maxsize] or more (none existing included), [dijkstra]
    returns the single label [dst], with nothing that tells it from an
    answer. *)
Theorem dijkstra_beyond_sentinel (g : Graph) (src dst : string) :
  nonneg_weights g -> closed_graph g ->
  is_node g src -> is_node g dst -> src <> dst ->
  (forall q W, walk g src q dst W -> (sys_maxsize <= W)%Z) ->
  dijkstra g src dst = Returned dst g.
Proof.
  intros Hnonneg Hclosed Hsrc Hdst Hne Hfar.
  destruct (search_result g src dst Hnonneg Hclosed Hsrc Hdst Hne)
    as (d & Hrun & _ & _ & Hwalk & Hpred).
  rewrite Hrun.
  destruct (pred d) as [|y rest] eqn:Hp; [reflexivity|exfalso].
  assert (Hlt : (cost d < sys_maxsize)%Z) by (apply Hpred; discriminate).
  specialize (Hfar _ _ (Hwalk Hlt)). lia.
Qed.

Lemma huge_edge_graph_walks (q : list string) (W : Z) :
  walk huge_edge_graph "A" q "B" W -> (sys_maxsize <= W)%Z.
Proof.
  intros Hwalk.
  assert (Hgen : forall v, walk huge_edge_graph "A" q v W ->
                   (v = "A" /\ 0 <= W)%Z \/ (v = "B" /\ sys_maxsize <= W)%Z).
  { clear Hwalk. intros v Hv.
    induction Hv as [|p u v W w Hv IH Hedge]; [left; split; [reflexivity|lia]|].
    apply weight_in in Hedge as (nb & Hnb & _ & Hin).
    destruct IH as [[-> HW]|[-> HW]]; vm_compute in Hnb.
    - injection Hnb as <-. destruct Hin as [[= <- <-]|[]].
      right. split; [reflexivity|]. unfold sys_maxsize in *. lia.
    - injection Hnb as <-. destruct Hin. }
  destruct (Hgen "B" Hwalk) as [[Heq _]|[_ HW]]; [discriminate|exact HW].
Qed.

Lemma dijkstra_beyond_sentinel_witness :
  (forall q W, walk huge_edge_graph "A" q "B" W -> (sys_maxsize <= W)%Z) /\
  dijkstra huge_edge_graph "A" "B" = Returned "B" huge_edge_graph.
Proof.
  split; [exact huge_edge_graph_walks|].
  apply (dijkstra_beyond_sentinel huge_edge_graph "A" "B").
  - apply nonneg_weightsb_sound. vm_compute. reflexivity.
  - apply closed_graphb_sound. vm_compute. reflexivity.
  - vm_compute. auto.
  - vm_compute. auto.
  - discriminate.
  - exact huge_edge_graph_walks.
Defined.

(** ** Walks *)

Lemma walk_cons (g : Graph) (u v x : string) (p : list string) (w W : Z) :
  weight g u v = Some w -> walk g v p x W -> walk g u (u :: p) x (w + W).
Proof.
  intros Huv Hwalk. induction Hwalk as [|p y z W w' Hwalk IH Hedge].
  - replace (w + 0)%Z with (0 + w)%Z by lia.
    apply (walk_step g u [u] u v 0 w); [constructor|exact Huv].
  - replace (w + (W + w'))%Z with ((w + W) + w')%Z by lia.
    apply (walk_step g u (u :: p) y z); assumption.
Qed.

Lemma walk_weight_sound (g : Graph) (p : list string) (x : string) (W : Z) :
  walk_weight g (x :: p) = Some W -> walk g x (x :: p) (last (x :: p) "") W.
Proof.
  revert x W. induction p as [|v p IH]; intros x W.
  - cbn [walk_weight last]. intros Heq. injection Heq as <-. constructor.
  - change (walk_weight g (x :: v :: p))
      with (match weight g x v, walk_weight g (v :: p) with
            | Some w, Some W' => Some (w + W')%Z
            | _, _ => None
            end).
    destruct (weight g x v) as [w|] eqn:Hw; [|discriminate].
    destruct (walk_weight g (v :: p)) as [W'|] eqn:HW; [|discriminate].
    intros [= <-]. change (last (x :: v :: p) "") with (last (v :: p) "").
    apply (walk_cons g x v); auto.
Qed.

Lemma walk_reverse (g : Graph) (a b : string) (p : list string) (W : Z) :
  symmetric g -> walk g a p b W -> exists p', walk g b p' a W.
Proof.
  intros Hsym Hwalk. induction Hwalk as [|p u v W w Hwalk [p' IH] Hedge].
  - exists [a]. constructor.
  - exists (v :: p'). replace (W + w)%Z with (w + W)%Z by lia.
    apply (walk_cons g v u); [now apply Hsym|exact IH].
Qed.

Lemma walk_trans (g : Graph) (a b c : string) (p q : list string)
    (W1 W2 : Z) :
  walk g a p b W1 -> walk g b q c W2 -> exists r, walk g a r c (W1 + W2).
Proof.
  intros Hp Hq. induction Hq as [|q u v W2 w Hq [r IH] Hedge].
  - exists p. now replace (W1 + 0)%Z with W1 by lia.
  - exists (r ++ [v]). replace (W1 + (W2 + w))%Z with ((W1 + W2) + w)%Z by lia.
    now apply walk_step with (u := u).
Qed.

Lemma walk_unit_length (g : Graph) (a b : string) (p : list string) (W : Z) :
  (forall u v w, weight g u v = Some w -> w = 1%Z) ->
  walk g a p b W -> W = (Z.of_nat (List.length p) - 1)%Z.
Proof.
  intros Hunit Hwalk. induction Hwalk as [|p u v W w Hwalk IH Hedge].
  - reflexivity.
  - rewrite length_app. cbn [List.length]. rewrite (Hunit _ _ _ Hedge). lia.
Qed.

(** ** Queries on the 8 x 8 board *)

Lemma knights_reach_checked : knights_reach_ok 8 "A1" = true.
Proof. vm_compute. reflexivity. Qed.

Lemma knights_reach_sound (n : Z) (src : string) (g : Graph) :
  knights_reach_ok n src = true -> build_knights_graph n = Ok g ->
  forall v, is_node g v -> exists p W, walk g src p v W /\ (W <= 64)%Z.
Proof.
  intros Hok Hg v Hv. unfold knights_reach_ok in Hok. rewrite Hg in Hok.
  rewrite forallb_forall in Hok. specialize (Hok v Hv).
  destruct (dijkstra_labels g src v) as [p|]; [|discriminate].
  destruct p as [|x p]; [discriminate|].
  destruct (walk_weight g (x :: p)) as [W|] eqn:HW; [|discriminate].
  apply andb_true_iff in Hok as [Hok HW64].
  apply andb_true_iff in Hok as [Hx Hlast].
  apply String.eqb_eq in Hx, Hlast. apply Z.leb_le in HW64.
  apply walk_weight_sound in HW. subst x. rewrite Hlast in HW.
  exists (src :: p), W. auto.
Qed.

Lemma knights_graph_8_facts (g : Graph) :
  build_knights_graph 8 = Ok g ->
  nonneg_weights g /\ closed_graph g /\ symmetric g /\
  (forall u v w, weight g u v = Some w -> w = 1%Z) /\
  (forall v, is_node g v ->
     exists p W, walk g "A1" p v W /\ (W <= 64)%Z).
Proof.
  intros Hg.
  assert (Hn : (1 <= 8 <= 8)%Z) by lia.
  destruct (knights_graph_facts 8 Hn) as (g0 & Hg0 & _ & _ & Hsym & _).
  assert (g0 = g) by congruence. subst g0.
  assert (Hedge : forall a b w, weight g a b = Some w ->
                    w = 1%Z /\ weight g b a = Some 1%Z).
  { intros a b w Hw. apply (all_edges_spec g _ Hsym) in Hw.
    apply andb_true_iff in Hw as [Hw1 Hrev]. apply Z.eqb_eq in Hw1.
    split; [exact Hw1|].
    destruct (weight g b a) as [w'|]; [|discriminate].
    apply Z.eqb_eq in Hrev. now subst. }
  split; [intros u v w Hw; destruct (Hedge _ _ _ Hw); lia|].
  split; [apply (knights_graph_closed 8 g Hn Hg)|].
  split.
  { intros a b w. split; intros Hw; destruct (Hedge _ _ _ Hw) as [-> Hrev];
      exact Hrev. }
  split; [intros u v w Hw; now destruct (Hedge _ _ _ Hw)|].
  exact (knights_reach_sound 8 "A1" g knights_reach_checked Hg).
Qed.

Lemma knights_route (g : Graph) (a b : string) :
  build_knights_graph 8 = Ok g -> is_node g a -> is_node g b ->
  exists p W,
    dijkstra g a b = Returned (join " " p) g /\
    walk g a p b W /\
    forall q W', walk g a q b W' ->
                 (List.length p <= List.length q)%nat.
Proof.
  intros Hg Ha Hb.
  destruct (knights_graph_8_facts g Hg)
    as (Hnonneg & Hclosed & Hsym & Hunit & Hreach).
  destruct (string_dec a b) as [<-|Hne].
  - destruct (dijkstra_self g a (S (edge_count (entries g))) Ha)
      as (s0 & _ & _ & _ & Hrun).
    exists [a], 0%Z. split; [exact Hrun|]. split; [constructor|].
    intros q W' Hq. apply walk_head in Hq as [rest ->]. cbn. lia.
  - destruct (search_result g a b Hnonneg Hclosed Ha Hb Hne)
      as (d & Hrun & _ & Hlow & Hwalk & _).
    destruct (Hreach a Ha) as (pa & Wa & Hpa & HWa).
    destruct (Hreach b Hb) as (pb & Wb & Hpb & HWb).
    destruct (walk_reverse g _ _ _ _ Hsym Hpa) as (pa' & Hpa').
    destruct (walk_trans g _ _ _ _ _ _ _ Hpa' Hpb) as (r & Hr).
    assert (Hlt : (cost d < sys_maxsize)%Z).
    { specialize (Hlow _ _ Hr). unfold sys_maxsize. lia. }
    specialize (Hwalk Hlt).
    exists (pred d ++ [b]), (cost d). split; [exact Hrun|].
    split; [exact Hwalk|].
    intros q W' Hq. specialize (Hlow _ _ Hq).
    rewrite (walk_unit_length g _ _ _ _ Hunit Hwalk) in Hlow.
    rewrite (walk_unit_length g _ _ _ _ Hunit Hq) in Hlow. lia.
Qed.

Lemma board_label_node (g : Graph) (rc : coord) (l : string) :
  build_knights_graph 8 = Ok g -> on_board 8 rc ->
  dict_get get_mapping rc = Some l -> is_node g l.
Proof.
  intros Hg Hrc Hl.
  assert (Hn : (1 <= 8 <= 8)%Z) by lia.
  destruct (knights_graph_facts 8 Hn) as (g0 & Hg0 & _ & Hkeys & _ & Hall).
  assert (g0 = g) by congruence. subst g0.
  apply Hkeys, movable_labels_spec. exists rc.
  split; [exact Hrc|]. split; [|exact Hl].
  apply can_move_spec. apply Hall; [lia|exact Hrc].
Qed.

(** X14.  On the graph built for the 8 x 8 board, as [main] builds it, a
    query between the labels of any two squares of the board returns the
    labels of a walk of knight moves from the first to the second; the
    number of moves is one less than the number of labels, and no walk
    between the two has fewer labels.  The graph is left as it was. *)
Theorem knights_shortest_route (g : Graph) (rc rc' : coord) (a b : string) :
  build_knights_graph 8 = Ok g ->
  on_board 8 rc -> on_board 8 rc' ->
  dict_get get_mapping rc = Some a -> dict_get get_mapping rc' = Some b ->
  exists p W,
    dijkstra g a b = Returned (join " " p) g /\
    walk g a p b W /\ W = (Z.of_nat (List.length p) - 1)%Z /\
    forall q W', walk g a q b W' ->
                 (List.length p <= List.length q)%nat.
Proof.
  intros Hg Hrc Hrc' Ha Hb.
  pose proof (board_label_node g rc a Hg Hrc Ha) as Hna.
  pose proof (board_label_node g rc' b Hg Hrc' Hb) as Hnb.
  destruct (knights_route g a b Hg Hna Hnb) as (p & W & Hrun & Hwalk & Hmin).
  destruct (knights_graph_8_facts g Hg) as (_ & _ & _ & Hunit & _).
  exists p, W. split; [exact Hrun|]. split; [exact Hwalk|].
  split; [|exact Hmin]. now apply (walk_unit_length g a b).
Qed.

Lemma knights_shortest_route_witness :
  exists g,
    build_knights_graph 8 = Ok g /\
    exists p W,
      dijkstra g "D4" "G7" = Returned (join " " p) g /\
      walk g "D4" p "G7" W /\ W = (Z.of_nat (List.length p) - 1)%Z /\
      forall q W', walk g "D4" q "G7" W' ->
                   (List.length p <= List.length q)%nat.
Proof.
  assert (Hn : (1 <= 8 <= 8)%Z) by lia.
  destruct (knights_graph_facts 8 Hn) as (g & Hg & _).
  exists g. split; [exact Hg|].
  apply (knights_shortest_route g (3, 3)%Z (6, 6)%Z "D4" "G7" Hg).
  - unfold on_board. cbn. lia.
  - unfold on_board. cbn. lia.
  - vm_compute. reflexivity.
  - vm_compute. reflexivity.
Defined.

(** ** Validated input *)

Lemma file_letter_cases (a : ascii) :
  in_class "A" "H" a = true -> In a (list_ascii_of_string "ABCDEFGH").
Proof.
  destruct a as [[] [] [] [] [] [] [] []]; vm_compute; intros H;
    try discriminate H; tauto.
Qed.

Lemma rank_digit_cases (b : ascii) :
  in_class "1" "8" b = true -> In b (list_ascii_of_string "12345678").
Proof.
  destruct b as [[] [] [] [] [] [] [] []]; vm_compute; intros H;
    try discriminate H; tauto.
Qed.

Lemma label_of_classes (a b : ascii) :
  in_class "A" "H" a = true -> in_class "1" "8" b = true ->
  on_board 8 (coord_of a b) /\
  dict_get get_mapping (coord_of a b) = Some (String a (String b "")) /\
  isspace a = false /\ isspace b = false.
Proof.
  intros Ha Hb. apply file_letter_cases in Ha. apply rank_digit_cases in Hb.
  cbn [list_ascii_of_string In] in Ha, Hb.
  repeat destruct Ha as [<-|Ha]; try contradiction;
    repeat destruct Hb as [<-|Hb]; try contradiction;
    (split; [unfold on_board; cbn; lia|]); vm_compute; auto.
Qed.

Lemma classes_of_label (rc : coord) :
  on_board 8 rc ->
  exists a b,
    dict_get get_mapping rc = Some (String a (String b "")) /\
    in_class "A" "H" a = true /\ in_class "1" "8" b = true.
Proof.
  intros Hrc. apply board_spec in Hrc.
  assert (Hall : forallb label_classes_ok (board 8) = true)
    by (vm_compute; reflexivity).
  rewrite forallb_forall in Hall. specialize (Hall rc Hrc).
  unfold label_classes_ok in Hall.
  destruct (dict_get get_mapping rc) as [[|a [|b [|x l]]]|];
    try discriminate.
  apply andb_true_iff in Hall as [Ha Hb]. exists a, b. auto.
Qed.

Lemma input_pattern_matches_spec (inp : string) :
  input_pattern_matches inp = true <->
  exists a b w c d,
    in_class "A" "H" a = true /\ in_class "1" "8" b = true /\
    isspace w = true /\
    in_class "A" "H" c = true /\ in_class "1" "8" d = true /\
    (inp = String a (String b (String w (String c (String d ""))))
     \/ inp = String a (String b (String w (String c (String d newline))))).
Proof.
  split.
  - destruct inp as [|a [|b [|w [|c [|d rest]]]]]; try discriminate.
    cbn [input_pattern_matches]. rewrite !andb_true_iff.
    intros [[[[[Ha Hb] Hw] Hc] Hd] Hrest].
    exists a, b, w, c, d. repeat (split; [assumption|]).
    destruct rest as [|nl [|x rest]]; [now left| |discriminate].
    apply Ascii.eqb_eq in Hrest. subst nl. now right.
  - intros (a & b & w & c & d & Ha & Hb & Hw & Hc & Hd & [-> | ->]);
      cbn [input_pattern_matches newline]; rewrite Ha, Hb, Hw, Hc, Hd;
      reflexivity.
Qed.

Lemma input_isvalid_forall (lines : list string) :
  input_isvalid lines = true <->
  forall line, In line lines -> input_pattern_matches line = true.
Proof.
  induction lines as [|inp lines IH]; cbn [input_isvalid In].
  - split; [intros _ line []|reflexivity].
  - destruct (input_pattern_matches inp) eqn:Hm; cbn [negb].
    + rewrite IH. split.
      * intros H line [<-|Hin]; auto.
      * intros H line Hin. auto.
    + split; [discriminate|]. intros H.
      specialize (H inp (or_introl eq_refl)). congruence.
Qed.

(** X15.  [input_isvalid] accepts a list of lines exactly when each line
    is the label of a square of the 8 x 8 board, one whitespace character,
    and the label of a square of the board, optionally followed by one
    newline; the empty list is accepted. *)
Theorem input_isvalid_spec (lines : list string) :
  input_isvalid lines = true <->
  forall line, In line lines ->
    exists rc rc' l l' w,
      on_board 8 rc /\ on_board 8 rc' /\
      dict_get get_mapping rc = Some l /\
      dict_get get_mapping rc' = Some l' /\
      isspace w = true /\
      (line = (l ++ String w l')%string \/
       line = (l ++ String w (l' ++ newline))%string).
Proof.
  rewrite input_isvalid_forall. split; intros H line Hin;
    specialize (H line Hin).
  - apply input_pattern_matches_spec in H
      as (a & b & w & c & d & Ha & Hb & Hw & Hc & Hd & Hline).
    destruct (label_of_classes a b Ha Hb) as (Hrc & Hl & _).
    destruct (label_of_classes c d Hc Hd) as (Hrc' & Hl' & _).
    exists (coord_of a b), (coord_of c d),
      (String a (String b "")), (String c (String d "")), w.
    repeat (split; [assumption|]). exact Hline.
  - destruct H as (rc & rc' & l & l' & w & Hrc & Hrc' & Hl & Hl' & Hw & Hline).
    destruct (classes_of_label rc Hrc) as (a & b & Hab & Ha & Hb).
    destruct (classes_of_label rc' Hrc') as (c & d & Hcd & Hc & Hd).
    assert (l = String a (String b "")) by congruence.
    assert (l' = String c (String d "")) by congruence. subst l l'.
    apply input_pattern_matches_spec. exists a, b, w, c, d.
    repeat (split; [assumption|]). exact Hline.
Qed.

(** ** Splitting lines *)

Lemma valid_line_split (line : string) :
  input_pattern_matches line = true ->
  exists rc rc' l l',
    on_board 8 rc /\ on_board 8 rc' /\
    dict_get get_mapping rc = Some l /\ dict_get get_mapping rc' = Some l' /\
    split line = [l; l'].
Proof.
  intros Hm. apply input_pattern_matches_spec in Hm
    as (a & b & w & c & d & Ha & Hb & Hw & Hc & Hd & Hline).
  destruct (label_of_classes a b Ha Hb) as (Hrc & Hl & Hsa & Hsb).
  destruct (label_of_classes c d Hc Hd) as (Hrc' & Hl' & Hsc & Hsd).
  exists (coord_of a b), (coord_of c d),
    (String a (String b "")), (String c (String d "")).
  repeat (split; [assumption|]).
  destruct Hline as [-> | ->]; unfold split, newline; cbn [split_from];
    rewrite Hsa, Hsb, Hw, Hsc, Hsd; reflexivity.
Qed.

(** X16.  Every line that [input_isvalid] accepts splits, as [main] splits
    it, into exactly two labels, and both are node keys of the graph built
    for the 8 x 8 board. *)
Theorem input_isvalid_split (g : Graph) (lines : list string) :
  build_knights_graph 8 = Ok g -> input_isvalid lines = true ->
  forall line, In line lines ->
    exists start finish,
      split line = [start; finish] /\ is_node g start /\ is_node g finish.
Proof.
  intros Hg Hvalid line Hin.
  apply input_isvalid_forall with (line := line) in Hvalid; [|exact Hin].
  destruct (valid_line_split line Hvalid)
    as (rc & rc' & l & l' & Hrc & Hrc' & Hl & Hl' & Hsplit).
  exists l, l'. split; [exact Hsplit|]. split.
  - exact (board_label_node g rc l Hg Hrc Hl).
  - exact (board_label_node g rc' l' Hg Hrc' Hl').
Qed.

Lemma input_isvalid_split_witness :
  exists g,
    build_knights_graph 8 = Ok g /\
    input_isvalid ["D4 G7"; "A1 H8"] = true /\
    forall line, In line ["D4 G7"; "A1 H8"] ->
      exists start finish,
        split line = [start; finish] /\ is_node g start /\ is_node g finish.
Proof.
  assert (Hn : (1 <= 8 <= 8)%Z) by lia.
  destruct (knights_graph_facts 8 Hn) as (g & Hg & _).
  exists g. split; [exact Hg|].
  assert (Hv : input_isvalid ["D4 G7"; "A1 H8"] = true) by reflexivity.
  split; [exact Hv|].
  exact (input_isvalid_split g ["D4 G7"; "A1 H8"] Hg Hv).
Defined.

Lemma string_app_assoc (a b c : string) :
  ((a ++ b) ++ c = a ++ (b ++ c))%string.
Proof. induction a as [|x a IH]; cbn; [reflexivity|now rewrite IH]. Qed.

Lemma string_app_nil_r (a : string) : (a ++ "")%string = a.
Proof. induction a as [|x a IH]; cbn; [reflexivity|now rewrite IH]. Qed.

Lemma split_from_word (x s word : string) :
  no_space x = true ->
  split_from (x ++ s) word = split_from s (word ++ x).
Proof.
  revert word. induction x as [|c x IH]; intros word; cbn [no_space].
  - intros _. cbn [append]. now rewrite string_app_nil_r.
  - rewrite andb_true_iff, negb_true_iff. intros [Hc Hx].
    cbn [append split_from]. rewrite Hc, (IH _ Hx), string_app_assoc.
    reflexivity.
Qed.

Lemma join_cons (sep x : string) (p : list string) :
  join sep (x :: p)
  = (x ++ match p with [] => "" | _ :: _ => sep ++ join sep p end)%string.
Proof.
  destruct p as [|y p]; cbn [join]; [now rewrite string_app_nil_r|reflexivity].
Qed.

Lemma is_word_no_space (x : string) : is_word x = true -> no_space x = true.
Proof. destruct x; [discriminate|auto]. Qed.

Lemma split_join_words (p : list string) (word : string) :
  is_word word = true ->
  forallb is_word p = true ->
  split_from (match p with
              | [] => ""
              | _ :: _ => (" " ++ join " " p)%string
              end) word
  = word :: p.
Proof.
  revert word. induction p as [|x p IH]; intros word Hword Hp.
  - cbn. now destruct word.
  - cbn [forallb] in Hp. apply andb_true_iff in Hp as [Hx Hp].
    change (" " ++ join " " (x :: p))%string
      with (String " " (join " " (x :: p))).
    cbn [split_from]. change (isspace " ") with true. cbv iota.
    destruct word as [|c word]; [discriminate|]. f_equal.
    rewrite join_cons, (split_from_word x _ "" (is_word_no_space x Hx)).
    cbn [append]. apply (IH x Hx Hp).
Qed.

(** X17.  Splitting what [' '.join] renders gives the labels back: for
    labels that are not empty and hold no whitespace, as the board's labels
    are, [split] of the joined string is the list that was joined. *)
Theorem split_join (p : list string) :
  forallb is_word p = true -> split (join " " p) = p.
Proof.
  intros Hp. destruct p as [|x p]; [reflexivity|].
  cbn [forallb] in Hp. apply andb_true_iff in Hp as [Hx Hp].
  unfold split.
  rewrite join_cons, (split_from_word x _ "" (is_word_no_space x Hx)).
  cbn [append]. apply (split_join_words p x Hx Hp).
Qed.

Lemma split_join_witness :
  forallb is_word ["D4"; "E6"; "G7"] = true /\
  split (join " " ["D4"; "E6"; "G7"]) = ["D4"; "E6"; "G7"].
Proof.
  split; [reflexivity|]. apply (split_join ["D4"; "E6"; "G7"]). reflexivity.
Defined.

(** ** [main] *)

Lemma answer_all_valid (g : Graph) (lines output : list string) :
  build_knights_graph 8 = Ok g ->
  (forall line, In line lines -> input_pattern_matches line = true) ->
  exists answered,
    answer_all g lines output = inr (output ++ answered) /\
    Forall2 (answers g) lines answered.
Proof.
  intros Hg. revert output.
  induction lines as [|line lines IH]; intros output Hvalid.
  - exists []. cbn. rewrite app_nil_r. split; [reflexivity|constructor].
  - destruct (valid_line_split line (Hvalid line (or_introl eq_refl)))
      as (rc & rc' & l & l' & Hrc & Hrc' & Hl & Hl' & Hsplit).
    pose proof (board_label_node g rc l Hg Hrc Hl) as Hnl.
    pose proof (board_label_node g rc' l' Hg Hrc' Hl') as Hnl'.
    destruct (knights_route g l l' Hg Hnl Hnl') as (p & W & Hrun & Hwalk & Hmin).
    destruct (IH (output ++ [join " " p])) as (rest & Hrest & Hall).
    { intros line' Hin. apply Hvalid. now right. }
    exists (join " " p :: rest). split.
    + cbn [answer_all]. rewrite Hsplit, Hrun, Hrest.
      now rewrite <- app_assoc.
    + constructor; [|exact Hall].
      exists l, l', p, W. auto.
Qed.

Lemma read_lines_app (lines tail acc : list string) :
  (forall line, In line lines -> line <> "") ->
  read_lines (lines ++ tail) acc = read_lines tail (acc ++ lines).
Proof.
  revert acc. induction lines as [|line lines IH]; intros acc Hne.
  - cbn. now rewrite app_nil_r.
  - cbn [app read_lines].
    destruct line as [|c line]; [now specialize (Hne "" (or_introl eq_refl))|].
    rewrite IH by (intros l Hl; apply Hne; now right).
    now rewrite <- app_assoc.
Qed.

Lemma valid_lines_nonempty (lines : list string) :
  input_isvalid lines = true -> forall line, In line lines -> line <> "".
Proof.
  intros Hvalid line Hin ->.
  now apply input_isvalid_forall with (line := "") in Hvalid.
Qed.

Lemma main_unfold (g : Graph) (stdin lines rest : list string) :
  build_knights_graph 8 = Ok g ->
  read_lines stdin [] = (lines, rest) ->
  main stdin
  = match (if input_isvalid lines then
             match answer_all g lines [] with
             | inr output => inr [join newline output]
             | inl e => inl e
             end
           else inr [INVALID_INPUT]) with
    | inl e => {| printed := [PROMPT]; raised := Some e |}
    | inr text =>
        {| printed := [PROMPT] ++ text ++ [PRESS_ENTER];
           raised := match rest with
                     | [] => Some ExcEOFError
                     | _ :: _ => None
                     end |}
    end.
Proof.
  intros Hg Hread. unfold main. rewrite Hg, Hread. reflexivity.
Qed.

(** X18.  When the lines typed are all valid, [main] prints the prompt,
    then one text that holds, line by line, an answer to each query (the
    labels of a walk of knight moves between the two squares named, as short
    as any), then the closing message.  It behaves so whether the lines end
    with an empty line or with the end of input; in the latter case, and
    when nothing follows the empty line, the last [input()] raises
    [EOFError]. *)
Theorem main_answers (lines : list string) :
  input_isvalid lines = true ->
  exists g answered,
    build_knights_graph 8 = Ok g /\
    Forall2 (answers g) lines answered /\
    (forall rest,
       main (lines ++ "" :: rest)
       = {| printed := [PROMPT; join newline answered; PRESS_ENTER];
            raised := match rest with
                      | [] => Some ExcEOFError
                      | _ :: _ => None
                      end |}) /\
    main lines
    = {| printed := [PROMPT; join newline answered; PRESS_ENTER];
         raised := Some ExcEOFError |}.
Proof.
  intros Hvalid.
  assert (Hn : (1 <= 8 <= 8)%Z) by lia.
  destruct (knights_graph_facts 8 Hn) as (g & Hg & _).
  destruct (answer_all_valid g lines [] Hg) as (answered & Hans & Hall).
  { now apply input_isvalid_forall. }
  cbn [app] in Hans.
  pose proof (valid_lines_nonempty lines Hvalid) as Hne.
  exists g, answered. split; [exact Hg|]. split; [exact Hall|]. split.
  - intros rest.
    rewrite (main_unfold g _ lines rest Hg).
    + now rewrite Hvalid, Hans.
    + rewrite (read_lines_app lines ("" :: rest) [] Hne). reflexivity.
  - rewrite (main_unfold g _ lines [] Hg).
    + now rewrite Hvalid, Hans.
    + rewrite <- (app_nil_r lines) at 1.
      rewrite (read_lines_app lines [] [] Hne). reflexivity.
Qed.

Lemma main_answers_witness :
  input_isvalid ["D4 G7"; "D4 D5"] = true /\
  exists g answered,
    build_knights_graph 8 = Ok g /\
    Forall2 (answers g) ["D4 G7"; "D4 D5"] answered /\
    (forall rest,
       main (["D4 G7"; "D4 D5"] ++ "" :: rest)
       = {| printed := [PROMPT; join newline answered; PRESS_ENTER];
            raised := match rest with
                      | [] => Some ExcEOFError
                      | _ :: _ => None
                      end |}) /\
    main ["D4 G7"; "D4 D5"]
    = {| printed := [PROMPT; join newline answered; PRESS_ENTER];
         raised := Some ExcEOFError |}.
Proof.
  split; [reflexivity|]. apply (main_answers ["D4 G7"; "D4 D5"]). reflexivity.
Defined.

(** X19.  Whatever is typed, [main] never ends with [KeyError] or
    [ValueError] and every query has an outcome: it prints the prompt, one
    text and the closing message, the text being the error message when
    some line is not valid; the only exception it can end with is the
    [EOFError] of the last [input()], raised exactly when no line is left to
    read. *)
Theorem main_never_fails (stdin : list string) :
  exists text,
    printed (main stdin) = [PROMPT; text; PRESS_ENTER] /\
    raised (main stdin)
    = match snd (read_lines stdin []) with
      | [] => Some ExcEOFError
      | _ :: _ => None
      end /\
    (input_isvalid (fst (read_lines stdin [])) = false ->
     text = INVALID_INPUT).
Proof.
  assert (Hn : (1 <= 8 <= 8)%Z) by lia.
  destruct (knights_graph_facts 8 Hn) as (g & Hg & _).
  destruct (read_lines stdin []) as [lines rest] eqn:Hread.
  rewrite (main_unfold g stdin lines rest Hg Hread). cbn [fst snd].
  destruct (input_isvalid lines) eqn:Hvalid.
  - destruct (answer_all_valid g lines [] Hg) as (answered & Hans & _).
    { now apply input_isvalid_forall. }
    rewrite Hans. cbn [app]. exists (join newline answered).
    split; [reflexivity|]. split; [reflexivity|discriminate].
  - exists INVALID_INPUT. auto.
Qed.
